(** * DeltaDeck: the option-spreads front end and the analysis core it calls

    A shallow embedding of the JavaScript sources of the repository
    (the API service layer, the [App] component and the recommendations
    table) together with the parts of the analysis core that the
    repository documents but does not ship with the front end.

    Conventions.
    - A JavaScript number is modelled by its exact value: an integer
      ([Z]) where the code only counts or doubles, a rational ([Q]) for
      prices, deltas and ratios.
    - An [async] function is a state transformer over a [World]; a
      rejected promise is the [inl] of a sum, a fulfilled one the [inr].
    - A JavaScript object read through a computed key ([a[sortField]])
      is a [gmap string Value]; arrays and objects live in a [Heap] and
      are named by locations, so that aliasing is visible.
    - What a built-in answers by the Unicode tables or by the host
      ([toUpperCase] and [trim] beyond ASCII, the text of a number,
      [localeCompare]) is a parameter: a field of [Js.Builtins] or a
      section variable. *)

From Stdlib Require Import ZArith QArith Qround Qabs Lqa Lia.
From Stdlib Require Import String Ascii List Permutation Sorted.
From stdpp Require Import gmap strings list pretty.

Import ListNotations.
Set Warnings "-register-all".
Local Open Scope Z_scope.
Local Open Scope string_scope.
Local Open Scope list_scope.

(** ** The JavaScript built-ins the sources rely on

    [String.prototype.toUpperCase] and [String.prototype.trim] follow the
    Unicode tables. On a string of ASCII characters their result is
    computed here; on any other string it is what the engine answers,
    which the development takes as given, like the conversion of a
    number to a string. A character of a [string] below 128 is the ASCII
    character of that code; the characters from 128 on carry the
    encoding of everything else and are looked into by the engine
    only. *)

Module Js.

Definition is_ascii (c : ascii) : bool := (nat_of_ascii c <? 128)%nat.

Fixpoint all_ascii (s : string) : bool :=
  match s with
  | EmptyString => true
  | String c s' => is_ascii c && all_ascii s'
  end.

Class Builtins := {
  (** [s.toUpperCase()] for an [s] that is not all ASCII. *)
  unicode_toUpperCase : string -> string;
  (** [s.trim()] for an [s] that is not all ASCII. *)
  unicode_trim : string -> string;
  (** [String(x)] for a number [x]. *)
  Number_toString : Q -> string
}.

(** An engine for the closed examples of this development, which use
    ASCII strings and whole numbers only. *)
Definition ascii_engine : Builtins :=
  {| unicode_toUpperCase := fun s => s;
     unicode_trim := fun s => s;
     Number_toString := fun q => pretty (Qfloor q) |}.

End Js.

(** ** Part I. The API service layer ([services/apiService.js]) *)

Module ApiService.

Inductive Method := GET | POST.

(** Values placed in a request body or in query parameters. *)
Inductive Payload :=
| PStr (s : string)
| PNum (n : Z).

(** What [api.get] / [api.post] hand to the network. Property lists keep
    the order in which the code writes the keys. *)
Record Request := mkRequest {
  method : Method;
  url : string;
  params : list (string * Payload);
  body : list (string * Payload)
}.

(** The parsed body of an error response ([error.response.data]): any
    JSON document. [BNull] also stands for a body that is [undefined].
    The property list of an object holds each key once. *)
Inductive Body :=
| BNull
| BBool (b : bool)
| BNum (q : Q)
| BStr (s : string)
| BArr (items : list Body)
| BObj (props : list (string * Body)).

(** The error object the response interceptor receives. [error.response]
    is set when the server answered with an error status,
    [error.request] when the request left but nothing came back. *)
Inductive AxiosError :=
| ErrResponse (status : Z) (data : Body)
| ErrRequest
| ErrOther (message : option string).

(** What is thrown: [new Error(msg)], or the [TypeError] of reading a
    property of [null] or [undefined]. *)
Inductive JsError :=
| Error (msg : string)
| TypeError (reading : string).

(** JavaScript truthiness of an optional string: [undefined] and the
    empty string are falsy. *)
Definition truthy (o : option string) : option string :=
  match o with
  | Some EmptyString => None
  | Some s => Some s
  | None => None
  end.

(** [a || b] on optional strings with a string default. *)
Definition or_else (o : option string) (d : string) : string :=
  match truthy o with Some s => s | None => d end.

(** Truthiness of a JSON value: [null], [false], [0] and the empty
    string are falsy, every array and object is truthy. *)
Definition body_truthy (v : Body) : bool :=
  match v with
  | BNull => false
  | BBool b => b
  | BNum q => negb (Qeq_bool q 0)
  | BStr EmptyString => false
  | BStr _ => true
  | BArr _ => true
  | BObj _ => true
  end.

(** [data.message], [data.detail] on a body that is not [null]: the
    property of an object, [undefined] ([None]) when it is missing; a
    string, a number, a boolean or an array has neither property. *)
Fixpoint lookup_prop (key : string) (props : list (string * Body)) : option Body :=
  match props with
  | [] => None
  | (k, v) :: rest => if String.eqb k key then Some v else lookup_prop key rest
  end.

Definition member (key : string) (data : Body) : option Body :=
  match data with
  | BObj props => lookup_prop key props
  | _ => None
  end.

(** [a || b] where [a] is a property that may be missing. *)
Definition or_value (a : option Body) (b : Body) : Body :=
  match a with
  | Some v => if body_truthy v then v else b
  | None => b
  end.

(** [String(v)], which is what [new Error(v)] stores as the message. An
    array is joined with commas, [null] elements giving the empty
    string; an object gives ["[object Object]"]. *)
Fixpoint ToString {engine : Js.Builtins} (v : Body) : string :=
  match v with
  | BNull => "null"
  | BBool true => "true"
  | BBool false => "false"
  | BNum q => Js.Number_toString q
  | BStr s => s
  | BArr items =>
      (fix join (l : list Body) : string :=
         match l with
         | [] => ""
         | x :: rest =>
             let element := match x with BNull => "" | _ => ToString x end in
             match rest with
             | [] => element
             | _ :: _ => element +:+ "," +:+ join rest
             end
         end) items
  | BObj _ => "[object Object]"
  end.

(** The rejection handler of [api.interceptors.response]. With a
    response, [data.message || data.detail || `Server error: ${status}`]
    becomes the message of a fresh [Error]; reading [data.message] of a
    missing body throws a [TypeError] instead. *)
Definition response_rejected {engine : Js.Builtins} (error : AxiosError) : JsError :=
  match error with
  | ErrResponse status data =>
      match data with
      | BNull => TypeError "message"
      | _ =>
          Error (ToString
                   (or_value (member "message" data)
                      (or_value (member "detail" data)
                         (BStr ("Server error: " +:+ pretty status)))))
      end
  | ErrRequest =>
      Error "Network error: Unable to connect to server"
  | ErrOther message =>
      Error (or_else message "Unknown error occurred")
  end.

(** What the interceptor throws when the request left and no response
    came back. *)
Definition network_error : JsError :=
  Error "Network error: Unable to connect to server".

(** Observable effects of the service layer, in the order they happen. *)
Inductive Event :=
| EvRequest (r : Request)
| EvWarn (attempt maxRetries : nat) (delay : Z)
| EvSleep (delay : Z).

Section Service.

(** [Net] is the state of everything behind the HTTP client, [Data] the
    type of [response.data]. *)
Context {engine : Js.Builtins} {Net Data : Type}.

Record World := mkWorld {
  net : Net;
  trace : list Event
}.

(** An [async] computation: it may throw, and it changes the world. *)
Definition Eff (X : Type) : Type := World -> (JsError + X) * World.

Definition ret {X} (x : X) : Eff X := fun w => (inr x, w).

Definition bind {X Y} (m : Eff X) (k : X -> Eff Y) : Eff Y :=
  fun w =>
    match m w with
    | (inr x, w') => k x w'
    | (inl e, w') => (inl e, w')
    end.

Definition emit (ev : Event) : Eff unit :=
  fun w => (inr tt, {| net := net w; trace := trace w ++ [ev] |}).

(** The server side: one answer, or one transport failure, per request. *)
Variable http : Request -> Net -> (AxiosError + Data) * Net.

(** [await api.get(...)] / [await api.post(...)] followed by
    [response.data]: the request goes out, the response interceptor
    passes a response through and turns a failure into a thrown
    [Error]. *)
Definition api_call (req : Request) : Eff Data :=
  fun w =>
    let w1 := {| net := net w; trace := trace w ++ [EvRequest req] |} in
    match http req (net w1) with
    | (inr d, n') => (inr d, {| net := n'; trace := trace w1 |})
    | (inl err, n') => (inl (response_rejected err), {| net := n'; trace := trace w1 |})
    end.

(** Between two attempts: [console.warn(...)], then
    [await new Promise(resolve => setTimeout(resolve, delay))]. *)
Definition backoff (attempt maxRetries : nat) (delay : Z) : Eff unit :=
  bind (emit (EvWarn attempt maxRetries delay)) (fun _ => emit (EvSleep delay)).

Definition after_backoff (attempt maxRetries : nat) (delay : Z) (w : World) : World :=
  snd (backoff attempt maxRetries delay w).

(** The loop of [retryRequest]. [remaining] counts the iterations the
    [for] loop has left, [remaining = maxRetries + 1 - attempt], so the
    loop test [attempt <= maxRetries] is [remaining <> 0]. Falling out of
    the loop returns [undefined], modelled by [None]. *)
Fixpoint retry_loop {X} (requestFn : Eff X) (maxRetries : nat)
    (remaining attempt : nat) (delay : Z) : Eff (option X) :=
  match remaining with
  | O => ret None
  | S remaining' =>
      fun w =>
        match requestFn w with
        | (inr x, w') => (inr (Some x), w')
        | (inl error, w') =>
            if Nat.eqb attempt maxRetries then (inl error, w')
            else
              bind (backoff attempt maxRetries delay) (fun _ =>
              retry_loop requestFn maxRetries remaining' (S attempt) (delay * 2)) w'
        end
  end.

(** [retryRequest(requestFn, maxRetries = 3, delay = 1000)]; an omitted
    argument is [None]. *)
Definition retryRequest {X} (requestFn : Eff X)
    (maxRetries : option nat) (delay : option Z) : Eff (option X) :=
  let maxRetries := default 3%nat maxRetries in
  let delay := default 1000 delay in
  retry_loop requestFn maxRetries maxRetries 1 delay.

(** [String.prototype.toUpperCase]. On an ASCII string [a]-[z] go to
    [A]-[Z] and every other character is kept; on other strings the
    engine's tables decide. *)
Definition upper_ascii (c : ascii) : ascii :=
  let n := nat_of_ascii c in
  if (97 <=? n)%nat && (n <=? 122)%nat then ascii_of_nat (n - 32) else c.

Fixpoint ascii_toUpperCase (s : string) : string :=
  match s with
  | EmptyString => EmptyString
  | String c s' => String (upper_ascii c) (ascii_toUpperCase s')
  end.

Definition toUpperCase (s : string) : string :=
  if Js.all_ascii s then ascii_toUpperCase s else Js.unicode_toUpperCase s.

(** [obj[key]] on a property list. *)
Fixpoint field (key : string) (props : list (string * Payload)) : option Payload :=
  match props with
  | [] => None
  | (k, v) :: rest => if String.eqb k key then Some v else field key rest
  end.

(** [fetchCurrentPrices()]. *)
Definition fetchCurrentPrices : Eff (option Data) :=
  retryRequest (api_call (mkRequest GET "/api/prices" [] [])) None None.

(** The request of [fetchRecommendations(symbol = 'NIFTY', strikesRange = 6)]. *)
Definition recommendations_request (symbol : option string)
    (strikesRange : option Z) : Request :=
  let symbol := default "NIFTY" symbol in
  let strikesRange := default 6 strikesRange in
  mkRequest POST "/api/recommendations" []
    [("symbol", PStr (toUpperCase symbol)); ("strikes_range", PNum strikesRange)].

Definition fetchRecommendations (symbol : option string)
    (strikesRange : option Z) : Eff (option Data) :=
  retryRequest (api_call (recommendations_request symbol strikesRange)) None None.

(** [fetchQuickRecommendations(symbol = 'NIFTY')]: the symbol is part of
    the path. *)
Definition quick_recommendations_request (symbol : option string) : Request :=
  let symbol := default "NIFTY" symbol in
  mkRequest GET ("/api/recommendations/" +:+ toUpperCase symbol) [] [].

Definition fetchQuickRecommendations (symbol : option string) : Eff (option Data) :=
  retryRequest (api_call (quick_recommendations_request symbol)) None None.

(** [fetchChartData(symbol = 'NIFTY', interval = 'ONE_MINUTE',
    fromDate = null, toDate = null)]; [from_date] and [to_date] are
    added only when truthy. *)
Definition chart_data_request (symbol interval fromDate toDate : option string) : Request :=
  let symbol := default "NIFTY" symbol in
  let interval := default "ONE_MINUTE" interval in
  let params := [("symbol", PStr (toUpperCase symbol)); ("interval", PStr interval)] in
  let params :=
    match truthy fromDate with
    | Some d => params ++ [("from_date", PStr d)]
    | None => params
    end in
  let params :=
    match truthy toDate with
    | Some d => params ++ [("to_date", PStr d)]
    | None => params
    end in
  mkRequest GET "/api/chart-data" params [].

Definition fetchChartData (symbol interval fromDate toDate : option string)
  : Eff (option Data) :=
  retryRequest (api_call (chart_data_request symbol interval fromDate toDate)) None None.

(** [fetchGainersLosers(dataType = 'PercOIGainers', expiryType = 'NEAR')]. *)
Definition gainers_losers_request (dataType expiryType : option string) : Request :=
  mkRequest GET "/api/gainers-losers"
    [("data_type", PStr (default "PercOIGainers" dataType));
     ("expiry_type", PStr (default "NEAR" expiryType))] [].

Definition fetchGainersLosers (dataType expiryType : option string) : Eff (option Data) :=
  retryRequest (api_call (gainers_losers_request dataType expiryType)) None None.

End Service.

Arguments World : clear implicits.
Arguments Eff : clear implicits.

(** What "the symbol upper-cased" means for a symbol in ASCII, said
    without [toUpperCase]: the same number of characters, each of [a]-[z]
    replaced by the character 32 places below it, which is its capital,
    and every other character as it was. *)
Definition is_lower_letter (c : ascii) : Prop :=
  (97 <= nat_of_ascii c <= 122)%nat.

Definition capital_of (c c' : ascii) : Prop :=
  (is_lower_letter c -> (nat_of_ascii c' + 32 = nat_of_ascii c)%nat) /\
  (~ is_lower_letter c -> c' = c).

Inductive uppercased : string -> string -> Prop :=
| uppercased_nil : uppercased "" ""
| uppercased_cons (c c' : ascii) (s s' : string) :
    capital_of c c' -> uppercased s s' ->
    uppercased (String c s) (String c' s').

(** Two symbols that differ in the case of letters only: at each
    position the same character, or a small letter on one side and its
    capital on the other. *)
Definition same_letter (c d : ascii) : Prop :=
  c = d \/
  (is_lower_letter c /\ (nat_of_ascii d + 32 = nat_of_ascii c)%nat) \/
  (is_lower_letter d /\ (nat_of_ascii c + 32 = nat_of_ascii d)%nat).

Inductive differ_in_case_only : string -> string -> Prop :=
| case_nil : differ_in_case_only "" ""
| case_cons (c d : ascii) (s t : string) :
    same_letter c d -> differ_in_case_only s t ->
    differ_in_case_only (String c s) (String d t).

(** An error body whose [message] and [detail], where present, are
    strings or [null], as the API documents them. *)
Definition is_text (o : option Body) : bool :=
  match o with
  | None => true
  | Some BNull => true
  | Some (BStr _) => true
  | Some _ => false
  end.

Definition text_fields (data : Body) : bool :=
  is_text (member "message" data) && is_text (member "detail" data).

(** Reading a trace. *)
Definition requests_of (t : list Event) : list Request :=
  omap (fun ev => match ev with EvRequest r => Some r | _ => None end) t.

Definition sleeps_of (t : list Event) : list Z :=
  omap (fun ev => match ev with EvSleep d => Some d | _ => None end) t.

(** [doubling d n]: the [n] delays [d, 2d, 4d, ...]. *)
Fixpoint doubling (d : Z) (n : nat) : list Z :=
  match n with
  | O => []
  | S n' => d :: doubling (d * 2) n'
  end.

(** Two servers used to exercise the wrapper. Their state counts the
    requests they have seen. The first answers 429 twice and then
    succeeds; the second is unreachable. *)
Definition rate_limited_twice (req : Request) (seen : nat)
  : (AxiosError + string) * nat :=
  (if (seen <? 2)%nat
   then inl (ErrResponse 429 (BObj [("message", BStr "Rate limit exceeded")]))
   else inr "recommendations",
   S seen).

Definition unreachable (req : Request) (seen : nat)
  : (AxiosError + string) * nat :=
  (inl ErrRequest, S seen).

(** A server that answers every request with status 500 and the body
    [{"detail": "Internal Server Error"}], and one that answers with an
    empty list. *)
Definition internal_error (req : Request) (seen : nat)
  : (AxiosError + list string) * nat :=
  (inl (ErrResponse 500 (BObj [("detail", BStr "Internal Server Error")])), S seen).

Definition empty_list (req : Request) (seen : nat)
  : (AxiosError + list string) * nat :=
  (inr [], S seen).

Definition fresh_world : World nat := {| net := 0%nat; trace := [] |}.

(** The state of the server after it has answered [k] times to [req]. *)
Definition net_after {Net Data : Type}
    (http : Request -> Net -> (AxiosError + Data) * Net)
    (req : Request) (n : Net) (k : nat) : Net :=
  Nat.iter k (fun n' => snd (http req n')) n.

(** The time spent sleeping in a trace, in milliseconds. *)
Definition total_sleep (t : list Event) : Z :=
  fold_right Z.add 0 (sleeps_of t).

(** A server whose error status changes with every request: 500, 501,
    502, ..., each with the body [{}]. *)
Definition varying_errors (req : Request) (seen : nat)
  : (AxiosError + string) * nat :=
  (inl (ErrResponse (500 + Z.of_nat seen) (BObj [])), S seen).

End ApiService.

(** ** The recommendations table ([components/RecommendationsTable.jsx]) *)

Module RecommendationsTable.

(** The JavaScript values a recommendation's property can hold once the
    response has been parsed from JSON. A number is modelled by its exact
    rational value; a parsed JSON number is never NaN or infinite, and
    the sign of [aVal - bVal], which is all [sort] looks at, is the sign
    of the exact difference. *)
Inductive Value :=
| VUndefined
| VNull
| VBool (b : bool)
| VNum (q : Q)
| VStr (s : string).

(** Objects and arrays are reached through references. A recommendation
    is an object, read by property name; the list of recommendations is
    an array of references to such objects. *)
Definition loc := positive.

Record Heap := mkHeap {
  objects : gmap loc (gmap string Value);
  arrays : gmap loc (list loc)
}.

(** [a[field]]: [undefined] when the property is missing. *)
Definition get (h : Heap) (a : loc) (field : string) : Value :=
  match objects h !! a with
  | Some o => default VUndefined (o !! field)
  | None => VUndefined
  end.

Inductive Direction := asc | desc.

(** The two [useState] cells that drive the ordering. *)
Record SortState := mkSortState {
  sortField : string;
  sortDirection : Direction
}.

Definition initial_state : SortState :=
  {| sortField := "risk_reward_ratio"; sortDirection := desc |}.

(** [handleSort(field)]: a second click on the same column flips the
    direction, a click on another column selects it, descending. *)
Definition handleSort (field : string) (st : SortState) : SortState :=
  if String.eqb (sortField st) field
  then {| sortField := sortField st;
          sortDirection := match sortDirection st with asc => desc | desc => asc end |}
  else {| sortField := field; sortDirection := desc |}.

Definition multiplier (st : SortState) : Q :=
  match sortDirection st with asc => 1 | desc => -1 end.

(** [Array.prototype.sort(compareFn)]. ECMAScript requires the sort to be
    stable and to place [a] before [b] when [compareFn(a, b) < 0]; for a
    consistent comparator every such sort returns the same array, which
    is the one computed here by insertion from the right: [x] stood
    before every element of [l], so it stays before the first [y] that
    does not have to precede it. *)
Fixpoint insert_sorted {A} (compareFn : A -> A -> Q) (x : A) (l : list A) : list A :=
  match l with
  | [] => [x]
  | y :: l' =>
      if Qle_bool (compareFn x y) 0 then x :: y :: l'
      else y :: insert_sorted compareFn x l'
  end.

Fixpoint array_sort {A} (compareFn : A -> A -> Q) (l : list A) : list A :=
  match l with
  | [] => []
  | x :: l' => insert_sorted compareFn x (array_sort compareFn l')
  end.

(** [x] may stand before [y]: the comparator does not ask for the
    opposite. *)
Definition may_precede {A} (compareFn : A -> A -> Q) (x y : A) : Prop :=
  (compareFn x y <= 0)%Q.

Section Component.

(** Two built-ins the comparator falls back on for non-numeric values:
    [String.prototype.localeCompare], whose result depends on the host's
    collation, and the number-to-string conversion. *)
Variable localeCompare : string -> string -> Z.
Variable numberToString : Q -> string.

(** [String(v)]. *)
Definition String_ (v : Value) : string :=
  match v with
  | VUndefined => "undefined"
  | VNull => "null"
  | VBool true => "true"
  | VBool false => "false"
  | VNum q => numberToString q
  | VStr s => s
  end.

(** The comparator passed to [sort]. *)
Definition compareFn (st : SortState) (h : Heap) (a b : loc) : Q :=
  let aVal := get h a (sortField st) in
  let bVal := get h b (sortField st) in
  match aVal, bVal with
  | VNum x, VNum y => (x - y) * multiplier st
  | _, _ => inject_Z (localeCompare (String_ aVal) (String_ bVal)) * multiplier st
  end.

(** [[...recommendations]]: a new array holding the same references. It
    throws ([None]) when [recommendations] is not an array. *)
Definition spread (h : Heap) (recommendations : loc) : option (loc * Heap) :=
  match arrays h !! recommendations with
  | Some elems =>
      let copy := fresh (dom (arrays h)) in
      Some (copy, {| objects := objects h; arrays := <[copy := elems]> (arrays h) |})
  | None => None
  end.

(** [arr.sort(compareFn)]: sorts the array in place and returns it. The
    comparator only reads the objects. *)
Definition sort_in_place (st : SortState) (h : Heap) (arr : loc) : option (loc * Heap) :=
  match arrays h !! arr with
  | Some elems =>
      Some (arr, {| objects := objects h;
                    arrays := <[arr := array_sort (compareFn st h) elems]> (arrays h) |})
  | None => None
  end.

(** [const sortedRecommendations = [...recommendations].sort((a, b) => ...)]. *)
Definition sortedRecommendations (st : SortState) (h : Heap) (recommendations : loc)
  : option (loc * Heap) :=
  match spread h recommendations with
  | Some (copy, h1) => sort_in_place st h1 copy
  | None => None
  end.

End Component.

(** Reading a numeric property, for statements about the order. *)
Definition number_of (h : Heap) (field : string) (a : loc) : option Q :=
  match get h a field with
  | VNum q => Some q
  | _ => None
  end.

Definition num (h : Heap) (field : string) (a : loc) : Q :=
  default 0%Q (number_of h field a).

(** What the comparator computes on a numeric column. *)
Definition by_column (st : SortState) (h : Heap) (a b : loc) : Q :=
  (num h (sortField st) a - num h (sortField st) b) * multiplier st.

(** The ranking the analysis documents, read on a list of references:
    ratio descending, then volume descending, then distance of the delta
    difference to 0.20 ascending. [ranks_before h a b] says that [a] must
    come strictly before [b]. *)
Definition ranks_before (h : Heap) (a b : loc) : Prop :=
  let ratio := num h "risk_reward_ratio" in
  let volume := num h "total_volume" in
  let off := fun r => Qabs (num h "delta_difference" r - (20 # 100)) in
  (ratio b < ratio a)%Q \/
  (ratio a == ratio b /\ volume b < volume a)%Q \/
  (ratio a == ratio b /\ volume a == volume b /\ off a < off b)%Q.

(** A list follows the documented ranking when no element that must come
    before another stands after it. *)
Definition follows_ranking (h : Heap) (l : list loc) : Prop :=
  forall (i j : nat) (a b : loc),
    l !! i = Some a -> l !! j = Some b -> ranks_before h a b -> (i < j)%nat.

(** Two recommendations with the same ratio; the second has the larger
    volume. *)
Definition tie_low_volume : gmap string Value :=
  {[ "type" := VStr "Bull Call Spread";
     "risk_reward_ratio" := VNum 2;
     "total_volume" := VNum 100;
     "delta_difference" := VNum (20 # 100) ]}.

Definition tie_high_volume : gmap string Value :=
  {[ "type" := VStr "Bull Call Spread";
     "risk_reward_ratio" := VNum 2;
     "total_volume" := VNum 200;
     "delta_difference" := VNum (20 # 100) ]}.

Definition tie_heap : Heap :=
  {| objects := {[ 1%positive := tie_low_volume; 2%positive := tie_high_volume ]};
     arrays := {[ 10%positive := [1%positive; 2%positive] ]} |}.

(** A list in ascending ratio order, to watch the sort reorder it. *)
Definition ratio_only (q : Q) : gmap string Value :=
  {[ "risk_reward_ratio" := VNum q ]}.

Definition unsorted_heap : Heap :=
  {| objects := {[ 1%positive := ratio_only 1;
                   2%positive := ratio_only 3;
                   3%positive := ratio_only 2 ]};
     arrays := {[ 10%positive := [1%positive; 2%positive; 3%positive] ]} |}.

(** A stand-in collation for concrete runs: code-unit order. *)
Definition codeunit_compare (s t : string) : Z :=
  match String.compare s t with
  | Lt => -1
  | Eq => 0
  | Gt => 1
  end.

Definition plain_number (q : Q) : string :=
  match Qden q with
  | 1%positive => pretty (Qnum q)
  | d => pretty (Qnum q) +:+ "/" +:+ pretty (Zpos d)
  end.

Definition ratio_ascending : SortState :=
  {| sortField := "risk_reward_ratio"; sortDirection := asc |}.

End RecommendationsTable.

(** ** The recommendation cards ([components/SpreadCards.jsx]) *)

Module SpreadCards.

Section Cards.

(** [Rec]: a recommendation as the component receives it. *)
Context {Rec : Type}.

(** The two [useState] cells and the timeouts that are pending, oldest
    first. A timeout holds the list its closure captured. All timeouts
    have the same delay of 300 ms, so they fire in the order in which
    they were set; no code path clears one. *)
Record CardsState := mkCards {
  animatedRecommendations : list Rec;
  isAnimating : bool;
  timeouts : list (list Rec)
}.

(** [useState([])], [useState(false)]. *)
Definition mounted : CardsState :=
  {| animatedRecommendations := []; isAnimating := false; timeouts := [] |}.

(** The effect on [[recommendations]]. [None] stands for a [null] or
    [undefined] prop. *)
Definition effect (recommendations : option (list Rec)) (st : CardsState)
  : CardsState :=
  match recommendations with
  | Some (r :: rs) =>
      {| animatedRecommendations := animatedRecommendations st;
         isAnimating := true;
         timeouts := timeouts st ++ [r :: rs] |}
  | _ =>
      {| animatedRecommendations := [];
         isAnimating := isAnimating st;
         timeouts := timeouts st |}
  end.

(** The callback of the oldest pending [setTimeout]. *)
Definition timeout_fires (st : CardsState) : CardsState :=
  match timeouts st with
  | [] => st
  | recommendations :: rest =>
      {| animatedRecommendations := recommendations;
         isAnimating := false;
         timeouts := rest |}
  end.

(** What happens to the component: the prop changes (the effect runs), or
    the oldest timeout fires. *)
Inductive Event :=
| Update (recommendations : option (list Rec))
| Timeout.

Definition step (st : CardsState) (ev : Event) : CardsState :=
  match ev with
  | Update recommendations => effect recommendations st
  | Timeout => timeout_fires st
  end.

Definition run (events : list Event) (st : CardsState) : CardsState :=
  fold_left step events st.

(** Every pending timeout fires. *)
Definition settle (st : CardsState) : CardsState :=
  Nat.iter (length (timeouts st)) timeout_fires st.

(** What the component renders: the skeleton while [loading], the "No
    Spread Recommendations" panel for an empty list, the cards
    otherwise. *)
Inductive View :=
| Skeleton
| NoRecommendations
| CardsOf (recommendations : list Rec).

Definition view (loading : bool) (st : CardsState) : View :=
  if loading then Skeleton
  else match animatedRecommendations st with
       | [] => NoRecommendations
       | l => CardsOf l
       end.

End Cards.

Arguments CardsState : clear implicits.
Arguments Event : clear implicits.
Arguments View : clear implicits.

End SpreadCards.

(** ** The price chart ([components/MarketCharts.jsx]) *)

Module MarketCharts.

(** [Math.max(...xs)] and [Math.min(...xs)] on finite numbers. [None]
    stands for the value returned for no argument at all, [-Infinity]
    for [max] and [Infinity] for [min]. *)
Definition Math_max (xs : list Q) : option Q :=
  fold_left (fun acc x =>
               match acc with
               | None => Some x
               | Some m => Some (if Qle_bool m x then x else m)
               end) xs None.

Definition Math_min (xs : list Q) : option Q :=
  fold_left (fun acc x =>
               match acc with
               | None => Some x
               | Some m => Some (if Qle_bool x m then x else m)
               end) xs None.

Section Charts.

(** [Timestamp]: what [candle.timestamp] holds; [Date]: what
    [new Date(...)] makes of it. *)
Context {Timestamp Date : Type}.

Variable newDate : Timestamp -> Date.

Record Candle := mkCandle {
  timestamp : Timestamp;
  open : Q;
  high : Q;
  low : Q;
  close : Q;
  volume : Q
}.

(** The [chartData] prop; [None] stands for [null], [undefined] or a
    missing [data] property. *)
Record ChartData := mkChartData {
  data : option (list Candle);
  data_points : Z;
  interval : string
}.

Record Columns := mkColumns {
  timestamps : list Date;
  opens : list Q;
  highs : list Q;
  lows : list Q;
  closes : list Q;
  volumes : list Q
}.

(** [formatChartData(data)]. *)
Definition formatChartData (chartData : option ChartData) : option Columns :=
  match chartData with
  | None => None
  | Some cd =>
      match data cd with
      | None => None
      | Some [] => None
      | Some candles =>
          Some {| timestamps := map (fun candle => newDate (timestamp candle)) candles;
                  opens := map open candles;
                  highs := map high candles;
                  lows := map low candles;
                  closes := map close candles;
                  volumes := map volume candles |}
      end
  end.

(** The two traces handed to the plot, without their styling. *)
Inductive Trace :=
| Candlestick (x : list Date) (open high low close : list Q) (name : string)
| Bar (x : list Date) (y : list Q) (name : string).

(** [createPlotData()]. *)
Definition createPlotData (chartData : option ChartData) (symbol : string)
  : list Trace :=
  match formatChartData chartData with
  | None => []
  | Some f =>
      [Candlestick (timestamps f) (opens f) (highs f) (lows f) (closes f) symbol;
       Bar (timestamps f) (volumes f) "Volume"]
  end.

(** The numbers of the statistics row, before they are formatted: the
    close of the last candle, the highest high, the lowest low. The row
    is rendered only for a non-empty [data]. *)
Definition last_close (candles : list Candle) : option Q :=
  close <$> last candles.

Definition day_high (candles : list Candle) : option Q :=
  Math_max (map high candles).

Definition day_low (candles : list Candle) : option Q :=
  Math_min (map low candles).

End Charts.

Arguments Candle : clear implicits.
Arguments ChartData : clear implicits.
Arguments Columns : clear implicits.
Arguments Trace : clear implicits.

(** Three one-minute candles. *)
Definition three_candles : list (Candle string) :=
  [ mkCandle "09:15" 24000 24040 23990 24030 1200;
    mkCandle "09:16" 24030 24080 24020 24075 900;
    mkCandle "09:17" 24075 24076 24010 24015 1500 ].

End MarketCharts.

(** ** The application component ([App.jsx]) *)

Module App.

(** A parsed JSON document. *)
Inductive Json :=
| JNull
| JBool (b : bool)
| JNum (q : Q)
| JStr (s : string)
| JArr (items : list Json)
| JObj (props : list (string * Json)).

(** What [await fetch(url)] can do: reject (no connection), or resolve to
    a response with its [ok] flag, its status and a body that
    [response.json()] either parses or rejects with a message. *)
Inductive FetchOutcome :=
| Rejected (message : string)
| Responded (ok : bool) (status : Z) (body : string + Json).

(** The [useState] cells the data flow touches. [None] stands for [null]
    or [undefined]. *)
Record AppState := mkAppState {
  currentPrices : option Json;
  recommendations : Json;
  loading : bool;
  error : option string;
  selectedSymbol : string;
  lastUpdated : option Z
}.

(** [useState] initial values. *)
Definition initial : AppState :=
  {| currentPrices := None;
     recommendations := JArr [];
     loading := true;
     error := None;
     selectedSymbol := "NIFTY";
     lastUpdated := None |}.

Definition setRecommendations (r : Json) (st : AppState) : AppState :=
  {| currentPrices := currentPrices st; recommendations := r; loading := loading st;
     error := error st; selectedSymbol := selectedSymbol st; lastUpdated := lastUpdated st |}.

Definition setError (e : option string) (st : AppState) : AppState :=
  {| currentPrices := currentPrices st; recommendations := recommendations st;
     loading := loading st; error := e; selectedSymbol := selectedSymbol st;
     lastUpdated := lastUpdated st |}.

Definition setLoading (b : bool) (st : AppState) : AppState :=
  {| currentPrices := currentPrices st; recommendations := recommendations st;
     loading := b; error := error st; selectedSymbol := selectedSymbol st;
     lastUpdated := lastUpdated st |}.

Definition setCurrentPrices (p : option Json) (st : AppState) : AppState :=
  {| currentPrices := p; recommendations := recommendations st; loading := loading st;
     error := error st; selectedSymbol := selectedSymbol st; lastUpdated := lastUpdated st |}.

Definition setLastUpdated (t : Z) (st : AppState) : AppState :=
  {| currentPrices := currentPrices st; recommendations := recommendations st;
     loading := loading st; error := error st; selectedSymbol := selectedSymbol st;
     lastUpdated := Some t |}.

Definition setSelectedSymbol (s : string) (st : AppState) : AppState :=
  {| currentPrices := currentPrices st; recommendations := recommendations st;
     loading := loading st; error := error st; selectedSymbol := s;
     lastUpdated := lastUpdated st |}.

(** [obj[key]] on a property list of a parsed object. *)
Fixpoint prop (key : string) (props : list (string * Json)) : option Json :=
  match props with
  | [] => None
  | (k, v) :: rest => if String.eqb k key then Some v else prop key rest
  end.

(** The mock prices the component falls back on. *)
Definition mock_prices : Json :=
  JObj [("NIFTY", JObj [("ltp", JNum (2511145 # 100))]);
        ("BANKNIFTY", JObj [("ltp", JNum (5682880 # 100))])].

Section Component.

(** [Net]: the state of the server and of the connection to it. *)
Context {Net : Type}.

Variable fetch : string -> Net -> FetchOutcome * Net.

(** [new Date()]. *)
Variable clock : Net -> Z.

(** [fetchRecommendations(symbol)]: every failure (no connection, a
    status outside 2xx, a body that is not JSON) lands in the [catch]
    block, which logs to the console and stores the empty list. *)
Definition fetchRecommendations (symbol : string) (n : Net) (st : AppState)
  : AppState * Net :=
  match fetch ("http://127.0.0.1:8000/api/recommendations/" +:+ symbol) n with
  | (Responded true _ (inr recommendationsData), n') =>
      (setRecommendations recommendationsData st, n')
  | (Responded true _ (inl _), n') => (setRecommendations (JArr []) st, n')
  | (Responded false _ _, n') => (setRecommendations (JArr []) st, n')
  | (Rejected _, n') => (setRecommendations (JArr []) st, n')
  end.

(** The [catch] block of [fetchInitialData]. *)
Definition initial_data_failed (message : string) (n : Net) (st : AppState) : AppState :=
  let message :=
    match message with
    | EmptyString => "Failed to fetch initial data from backend server."
    | m => m
    end in
  setLoading false
    (setLastUpdated (clock n)
       (setCurrentPrices (Some mock_prices)
          (setError (Some message) st))).

(** [fetchInitialData()]. *)
Definition fetchInitialData (n : Net) (st : AppState) : AppState * Net :=
  let st := setError None st in
  match fetch "http://127.0.0.1:8000/api/prices" n with
  | (Rejected message, n') => (initial_data_failed message n' st, n')
  | (Responded false status _, n') =>
      (initial_data_failed ("HTTP error! status: " +:+ pretty status) n' st, n')
  | (Responded true _ (inl message), n') => (initial_data_failed message n' st, n')
  | (Responded true _ (inr JNull), n') =>
      (initial_data_failed "Cannot read properties of null (reading 'prices')" n' st, n')
  | (Responded true _ (inr data), n') =>
      let prices := match data with JObj props => prop "prices" props | _ => None end in
      let st := setLastUpdated (clock n') (setCurrentPrices prices st) in
      let (st, n'') := fetchRecommendations (selectedSymbol st) n' st in
      (setLoading false st, n'')
  end.

(** [handleSymbolChange(symbol)], the handler of the symbol selector. *)
Definition handleSymbolChange (symbol : string) (n : Net) (st : AppState)
  : AppState * Net :=
  let st := setLoading true (setSelectedSymbol symbol st) in
  let (st, n') := fetchRecommendations symbol n st in
  (setLoading false st, n').

End Component.

(** The guard [!recommendations || recommendations.length === 0] under
    which the recommendation views render their "no recommendations"
    panel. *)
Definition shows_no_recommendations (r : Json) : bool :=
  match r with
  | JNull => true
  | JBool b => negb b
  | JNum q => Qeq_bool q 0
  | JStr s => String.eqb s ""
  | JArr items => match items with [] => true | _ => false end
  | JObj _ => false
  end.

(** What the user is shown about recommendations: the error banner, if
    any, and whether the "no recommendations" panel is up. *)
Definition presented (st : AppState) : option string * bool :=
  (error st, shows_no_recommendations (recommendations st)).

(** Two servers: one answers every request with status 500, the other
    answers the recommendations request with an empty list. *)
Definition server_error (url : string) (n : unit) : FetchOutcome * unit :=
  (Responded false 500 (inr (JObj [("detail", JStr "Internal Server Error")])), n).

Definition no_opportunities (url : string) (n : unit) : FetchOutcome * unit :=
  (Responded true 200 (inr (JArr [])), n).

Definition loaded : AppState :=
  {| currentPrices := Some mock_prices;
     recommendations := JArr [JObj [("type", JStr "Bull Call Spread")]];
     loading := false;
     error := None;
     selectedSymbol := "NIFTY";
     lastUpdated := Some 0 |}.

(** Whether the prices request delivered something [data.prices] can be
    read from: a 2xx response whose body parses to anything but
    [null]. *)
Definition prices_delivered (o : FetchOutcome) : bool :=
  match o with
  | Responded true _ (inr JNull) => false
  | Responded true _ (inr _) => true
  | _ => false
  end.

(** *** The price feed ([connectWebSocket]) *)

(** JavaScript truthiness of a parsed JSON value. *)
Definition json_truthy (v : Json) : bool :=
  match v with
  | JNull => false
  | JBool b => b
  | JNum q => negb (Qeq_bool q 0)
  | JStr s => negb (String.eqb s "")
  | JArr _ => true
  | JObj _ => true
  end.

(** The cells and resources of the feed: the two [useState] cells, the
    number of sockets created so far and the number of reconnection
    timeouts that are pending. *)
Record Feed := mkFeed {
  wsConnected : bool;
  wsError : option string;
  sockets : nat;
  reconnects : nat
}.

Definition feed_initial : Feed :=
  {| wsConnected := false; wsError := None; sockets := 0; reconnects := 0 |}.

(** What can happen to the feed: a socket opens, delivers a message (text
    that [JSON.parse] rejects, or a parsed value, with the time of its
    arrival), closes, reports an error; a reconnection timeout comes due
    and [new WebSocket] succeeds or throws. *)
Inductive FeedEvent :=
| Opened
| Message (data : string + Json) (now : Z)
| Closed (wasClean : bool)
| Errored
| ReconnectDue (created : bool).

(** [connectWebSocket()]: the constructor either yields a socket or
    throws, which the [catch] block turns into an error text. *)
Definition connectWebSocket (created : bool) (f : Feed) : Feed :=
  if created
  then {| wsConnected := wsConnected f; wsError := wsError f;
          sockets := S (sockets f); reconnects := reconnects f |}
  else {| wsConnected := wsConnected f;
          wsError := Some "Failed to connect to real-time feed";
          sockets := sockets f; reconnects := reconnects f |}.

(** [ws.onmessage]: only an object whose [type] is ["price_update"] and
    whose [data] is truthy updates the prices; a parse error and the
    [TypeError] on [null] are caught and logged. *)
Definition onmessage (data : string + Json) (now : Z) (st : AppState) : AppState :=
  match data with
  | inr (JObj props) =>
      match prop "type" props, prop "data" props with
      | Some (JStr type), Some d =>
          if String.eqb type "price_update" && json_truthy d
          then setLastUpdated now (setCurrentPrices (Some d) st)
          else st
      | _, _ => st
      end
  | _ => st
  end.

(** The handlers and the timeout callback, on the component's cells and
    the feed. *)
Definition feed_step (s : AppState * Feed) (ev : FeedEvent) : AppState * Feed :=
  let (st, f) := s in
  match ev with
  | Opened =>
      (st, {| wsConnected := true; wsError := None;
              sockets := sockets f; reconnects := reconnects f |})
  | Message data now => (onmessage data now st, f)
  | Closed wasClean =>
      if wasClean
      then (st, {| wsConnected := false; wsError := wsError f;
                   sockets := sockets f; reconnects := reconnects f |})
      else (st, {| wsConnected := false;
                   wsError := Some "Connection lost. Attempting to reconnect...";
                   sockets := sockets f; reconnects := S (reconnects f) |})
  | Errored =>
      (st, {| wsConnected := false; wsError := Some "WebSocket connection error";
              sockets := sockets f; reconnects := reconnects f |})
  | ReconnectDue created =>
      match reconnects f with
      | O => (st, f)
      | S pending =>
          (st, connectWebSocket created
                 {| wsConnected := wsConnected f; wsError := wsError f;
                    sockets := sockets f; reconnects := pending |})
      end
  end.

Definition feed_run (events : list FeedEvent) (s : AppState * Feed) : AppState * Feed :=
  fold_left feed_step events s.

(** The closes that were not clean. *)
Definition unclean_closes (events : list FeedEvent) : nat :=
  length (List.filter (fun ev => match ev with Closed false => true | _ => false end) events).

(** The state right after mounting: the first socket has been created. *)
Definition feed_mounted : AppState * Feed :=
  (initial, connectWebSocket true feed_initial).

End App.

(** ** The assistant panel ([components/GeminiChat.jsx]) *)

Module GeminiChat.

(** The white space and line terminators of the ASCII range: tab, line
    feed, vertical tab, form feed, carriage return, space. *)
Definition is_space (c : ascii) : bool :=
  let n := nat_of_ascii c in
  ((9 <=? n)%nat && (n <=? 13)%nat) || (n =? 32)%nat.

Fixpoint trim_start (s : string) : string :=
  match s with
  | EmptyString => EmptyString
  | String c s' => if is_space c then trim_start s' else s
  end.

Fixpoint trim_end (s : string) : string :=
  match s with
  | EmptyString => EmptyString
  | String c s' =>
      match trim_end s' with
      | EmptyString => if is_space c then EmptyString else String c EmptyString
      | t => String c t
      end
  end.

(** [s.trim()]. On an ASCII string the six characters above are what is
    stripped from both ends; a string with other characters may begin or
    end with white space from beyond ASCII (the no-break space, the
    ideographic space, ...), and the engine's tables decide. *)
Definition ascii_trim (s : string) : string := trim_end (trim_start s).

Definition trim {engine : Js.Builtins} (s : string) : string :=
  if Js.all_ascii s then ascii_trim s else Js.unicode_trim s.

(** The [useState] cells. [answer] holds whatever [result.answer] was;
    [None] stands for [undefined]. *)
Record ChatState := mkChat {
  question : string;
  answer : option App.Json;
  isLoading : bool;
  error : string;
  showWelcome : bool
}.

Definition initial : ChatState :=
  {| question := ""; answer := Some (App.JStr ""); isLoading := false;
     error := ""; showWelcome := true |}.

(** [handleQuestionChange(e)] with [e.target.value = value]. *)
Definition handleQuestionChange {engine : Js.Builtins} (value : string) (st : ChatState) : ChatState :=
  {| question := value; answer := answer st; isLoading := isLoading st;
     error := error st;
     showWelcome :=
       if showWelcome st && negb (String.eqb (trim value) "")
       then false else showWelcome st |}.

(** [handleQuickQuestion(quickQuestion)]. *)
Definition handleQuickQuestion (quickQuestion : string) (st : ChatState) : ChatState :=
  {| question := quickQuestion; answer := answer st; isLoading := isLoading st;
     error := error st; showWelcome := false |}.

Definition dquote : string := String "034"%char EmptyString.

Definition newline : string := String "010"%char EmptyString.

(** The engineered prompt: fixed instructions, then the question between
    double quotes. *)
Definition instructions : string :=
  "You are an expert AI assistant that specializes ONLY in financial option spreads (e.g., bull call spread, bear put spread, iron condor, butterfly spread, calendar spread, etc.). Your sole purpose is to answer questions clearly and concisely about these topics."
  +:+ newline +:+ newline +:+
  "If the user asks a question about anything other than option spreads (such as specific stocks, cryptocurrencies, general news, coding, or any other unrelated topic), you MUST refuse to answer."
  +:+ newline +:+ newline +:+
  "Your ONLY response in that case must be this exact phrase: " +:+ dquote +:+
  "I can only answer questions related to option spreads." +:+ dquote
  +:+ newline +:+ newline +:+
  "Do not provide any other information or pleasantries if the question is off-topic."
  +:+ newline +:+ newline +:+
  "For valid option spread questions, provide clear, educational answers that help traders understand the strategy, its risks, rewards, and when to use it."
  +:+ newline +:+ newline.

Definition engineeredPrompt (question : string) : string :=
  instructions +:+ "User's question: " +:+ dquote +:+ question +:+ dquote.

Section Panel.

Context {engine : Js.Builtins} {Net : Type}.

(** [fetch(url, { method: 'POST', ..., body: JSON.stringify({ question }) })]
    to the chat endpoint, given the [question] field of the body. *)
Variable post : string -> Net -> App.FetchOutcome * Net.

(** [String(v)] for a parsed JSON value, and the message of the
    [TypeError] raised by reading a property of [null]. *)
Variable String_ : App.Json -> string.
Variable null_read_message : string -> string.

(** [errorData.detail || `API request failed with status ${status}`],
    as the message of the thrown [Error]. *)
Definition failure_message (errorData : App.Json) (status : Z) : string :=
  let fallback := "API request failed with status " +:+ pretty status in
  match errorData with
  | App.JNull => null_read_message "detail"
  | App.JObj props =>
      match App.prop "detail" props with
      | Some d => if App.json_truthy d then String_ d else fallback
      | None => fallback
      end
  | _ => fallback
  end.

(** The [catch] and [finally] blocks. *)
Definition ask_failed (message : string) (st : ChatState) : ChatState :=
  {| question := question st; answer := answer st; isLoading := false;
     error := "Sorry, something went wrong: " +:+ message;
     showWelcome := showWelcome st |}.

(** [handleAskGemini()]: the new state, the server's state, and the
    prompts sent. *)
Definition handleAskGemini (n : Net) (st : ChatState)
  : ChatState * Net * list string :=
  match trim (question st) with
  | EmptyString =>
      ({| question := question st; answer := answer st; isLoading := isLoading st;
          error := "Please enter a question."; showWelcome := showWelcome st |},
       n, [])
  | _ =>
      let st := {| question := question st; answer := Some (App.JStr "");
                   isLoading := true; error := ""; showWelcome := showWelcome st |} in
      let prompt := engineeredPrompt (question st) in
      let (outcome, n') := post prompt n in
      let st' :=
        match outcome with
        | App.Rejected message => ask_failed message st
        | App.Responded _ _ (inl message) => ask_failed message st
        | App.Responded false status (inr errorData) =>
            ask_failed (failure_message errorData status) st
        | App.Responded true _ (inr App.JNull) =>
            ask_failed (null_read_message "answer") st
        | App.Responded true _ (inr result) =>
            {| question := question st;
               answer := match result with
                         | App.JObj props => App.prop "answer" props
                         | _ => None
                         end;
               isLoading := false; error := error st;
               showWelcome := showWelcome st |}
        end in
      (st', n', [prompt])
  end.

(** [handleKeyPress(e)]: Enter asks, unless an answer is being loaded. *)
Definition handleKeyPress (key : string) (n : Net) (st : ChatState)
  : ChatState * Net * list string :=
  if String.eqb key "Enter" && negb (isLoading st)
  then handleAskGemini n st
  else (st, n, []).

End Panel.

(** The user's actions on the input, for statements about the welcome
    card. *)
Inductive Input :=
| Typed (value : string)
| Quick (quickQuestion : string).

Definition input_step {engine : Js.Builtins} (st : ChatState) (i : Input) : ChatState :=
  match i with
  | Typed value => handleQuestionChange value st
  | Quick q => handleQuickQuestion q st
  end.

Definition only_blank_typing {engine : Js.Builtins} (i : Input) : bool :=
  match i with
  | Typed value => String.eqb (trim value) ""
  | Quick _ => false
  end.

(** A chat server that answers every prompt, and one that refuses with a
    [detail]. *)
Definition answering (prompt : string) (n : unit) : App.FetchOutcome * unit :=
  (App.Responded true 200
     (inr (App.JObj [("answer", App.JStr "A bull call spread is a debit spread.")])), n).

Definition refusing (prompt : string) (n : unit) : App.FetchOutcome * unit :=
  (App.Responded false 503 (inr (App.JObj [("detail", App.JStr "Gemini is unavailable")])), n).

Definition string_of_json (v : App.Json) : string :=
  match v with
  | App.JStr s => s
  | App.JNull => "null"
  | App.JBool true => "true"
  | App.JBool false => "false"
  | App.JNum q => RecommendationsTable.plain_number q
  | App.JArr _ => ""
  | App.JObj _ => "[object Object]"
  end.

Definition v8_null_read (p : string) : string :=
  "Cannot read properties of null (reading '" +:+ p +:+ "')".

End GeminiChat.

(** ** The price cards ([components/PriceDisplay.jsx], and the same
    expression in [App.jsx]) *)

Module PriceDisplay.

(** [prices?.[symbol]?.ltp || 0]: every missing link of the chain, and
    every falsy [ltp], gives 0. *)
Definition ltp (prices : option App.Json) (symbol : string) : App.Json :=
  match prices with
  | Some (App.JObj props) =>
      match App.prop symbol props with
      | Some (App.JObj quote) =>
          match App.prop "ltp" quote with
          | Some v => if App.json_truthy v then v else App.JNum 0
          | None => App.JNum 0
          end
      | _ => App.JNum 0
      end
  | _ => App.JNum 0
  end.

Definition niftyPrice (prices : option App.Json) : App.Json := ltp prices "NIFTY".

Definition bankniftyPrice (prices : option App.Json) : App.Json := ltp prices "BANKNIFTY".

End PriceDisplay.

(** ** The spread analyzer (documented in [design.md]; its Python source
    is not part of the front-end tree) *)

Module SpreadAnalyzer.

Inductive OptionType := CALL | PUT.

(** Modelled from the spec: the [OptionContract] entity of the absent
    [spreads.py], with the attributes the data model lists. *)
Record OptionContract := mkContract {
  symbol : string;
  expiry : string;
  strike : Q;
  option_type : OptionType;
  premium : Q;
  delta : Q;
  gamma : Q;
  theta : Q;
  vega : Q;
  implied_volatility : Q;
  volume : Q
}.

Inductive SpreadKind := BULL_CALL | BEAR_PUT.

(** Modelled from the spec: the [SpreadRecommendation] entity of the
    absent [spreads.py]. *)
Record SpreadRecommendation := mkSpread {
  kind : SpreadKind;
  spread_symbol : string;
  spread_expiry : string;
  buy_strike : Q;
  buy_premium : Q;
  buy_delta : Q;
  sell_strike : Q;
  sell_premium : Q;
  sell_delta : Q;
  delta_difference : Q;
  net_premium : Q;
  max_profit : Q;
  max_loss : Q;
  breakeven : Q;
  profit_per_100_up : Q;
  profit_per_100_down : Q;
  risk_reward_ratio : Q;
  total_volume : Q;
  probability_profit : Q
}.

(** Modelled from the spec: the rounding of the absent analyzer's ATM
    step. The spec leaves the treatment of exact halves open and asks for
    one consistent rule; this is round-half-to-even, the rule of Python's
    built-in [round]. *)
Definition round_half_even (q : Q) : Z :=
  let f := Qfloor q in
  match (q - inject_Z f ?= 1 # 2)%Q with
  | Lt => f
  | Gt => f + 1
  | Eq => if Z.even f then f else f + 1
  end.

(** Modelled from the spec: step 1 of the absent [analyze],
    [atm = round(current_price / strike_interval) * strike_interval]. *)
Definition atm_strike (current_price strike_interval : Q) : Q :=
  inject_Z (round_half_even (current_price / strike_interval)) * strike_interval.

(** The last [n] elements of a list. *)
Definition last_n {A} (n : nat) (l : list A) : list A :=
  skipn (length l - n) l.

Definition is_type (t : OptionType) (c : OptionContract) : bool :=
  match t, option_type c with
  | CALL, CALL => true
  | PUT, PUT => true
  | _, _ => false
  end.

Definition below (atm : Q) (c : OptionContract) : bool :=
  negb (Qle_bool atm (strike c)).

Definition above (atm : Q) (c : OptionContract) : bool :=
  negb (Qle_bool (strike c) atm).

Definition at_strike (atm : Q) (c : OptionContract) : bool :=
  Qeq_bool (strike c) atm.

(** Modelled from the spec: step 2 of the absent [analyze]. From the
    contracts of one option type, ordered by ascending strike, keep the
    [strikes_range] strikes next below the ATM strike, the ATM strike and
    the [strikes_range] strikes next above it; when a side has fewer, keep
    what there is. *)
Definition strike_window (strikes_range : nat) (atm : Q)
    (contracts : list OptionContract) : list OptionContract :=
  last_n strikes_range (List.filter (below atm) contracts)
  ++ List.filter (at_strike atm) contracts
  ++ firstn strikes_range (List.filter (above atm) contracts).

(** Modelled from the spec: the acceptance band of step 3, closed at both
    ends. *)
Definition band_low : Q := 15 # 100.
Definition band_high : Q := 26 # 100.

Definition in_band (d : Q) : bool :=
  Qle_bool band_low d && Qle_bool d band_high.

Section Analyzer.

(** Modelled from the spec: the profit-probability heuristic, for which
    the spec gives no formula; it is a parameter of the analysis and takes
    the delta difference. *)
Variable probability_of : Q -> Q.

Variable lot_size : Q.

(** Modelled from the spec: steps 4 and 5 of the absent [analyze], the
    spread built from a buy leg and a sell leg with its risk metrics. The
    delta difference is the magnitude of [buy_delta - sell_delta]. *)
Definition make_spread (k : SpreadKind) (buy sell : OptionContract)
  : SpreadRecommendation :=
  let net := (premium buy - premium sell)%Q in
  let dd := Qabs (delta buy - delta sell) in
  let profit := ((Qabs (strike sell - strike buy) - net) * lot_size)%Q in
  let loss := (net * lot_size)%Q in
  let up := ((delta buy - delta sell) * 100 * lot_size)%Q in
  {| kind := k;
     spread_symbol := symbol buy;
     spread_expiry := expiry buy;
     buy_strike := strike buy;
     buy_premium := premium buy;
     buy_delta := delta buy;
     sell_strike := strike sell;
     sell_premium := premium sell;
     sell_delta := delta sell;
     delta_difference := dd;
     net_premium := net;
     max_profit := profit;
     max_loss := loss;
     breakeven := match k with
                  | BULL_CALL => (strike buy + net)%Q
                  | BEAR_PUT => (strike buy - net)%Q
                  end;
     profit_per_100_up := up;
     profit_per_100_down := (- up)%Q;
     risk_reward_ratio := (profit / loss)%Q;
     total_volume := (volume buy + volume sell)%Q;
     probability_profit := probability_of dd |}.

(** Modelled from the spec: the acceptance test of steps 3 to 5 of the
    absent [analyze]: delta difference inside the band, a positive net
    debit, a positive maximum loss. *)
Definition acceptable (r : SpreadRecommendation) : bool :=
  in_band (delta_difference r)
  && negb (Qle_bool (net_premium r) 0)
  && negb (Qle_bool (max_loss r) 0).

(** Modelled from the spec: step 3 of the absent [analyze] for one option
    type. The buy leg is the ATM contract; the sell legs are the
    contracts of the window that are out of the money in the direction of
    the spread (higher strikes for calls, lower strikes for puts). *)
Definition spreads_of (t : OptionType) (strikes_range : nat) (atm : Q)
    (contracts : list OptionContract) : list SpreadRecommendation :=
  let window := strike_window strikes_range atm (List.filter (is_type t) contracts) in
  match List.filter (at_strike atm) window with
  | [] => []
  | buy :: _ =>
      let k := match t with CALL => BULL_CALL | PUT => BEAR_PUT end in
      let otm := match t with CALL => above atm | PUT => below atm end in
      List.filter acceptable (map (make_spread k buy) (List.filter otm window))
  end.

(** Modelled from the spec: the ranking key of step 6. [ranks_no_later a b]
    holds when [a] may stand before [b]: higher risk-reward ratio first,
    then higher combined volume, then the delta difference closer to
    0.20. *)
Definition off_midpoint (r : SpreadRecommendation) : Q :=
  Qabs (delta_difference r - (20 # 100)).

Definition ranks_no_later (a b : SpreadRecommendation) : bool :=
  match (risk_reward_ratio a ?= risk_reward_ratio b)%Q with
  | Gt => true
  | Lt => false
  | Eq =>
      match (total_volume a ?= total_volume b)%Q with
      | Gt => true
      | Lt => false
      | Eq => Qle_bool (off_midpoint a) (off_midpoint b)
      end
  end.

Fixpoint insert_ranked (x : SpreadRecommendation) (l : list SpreadRecommendation)
  : list SpreadRecommendation :=
  match l with
  | [] => [x]
  | y :: l' => if ranks_no_later x y then x :: y :: l' else y :: insert_ranked x l'
  end.

(** Modelled from the spec: the ranking of step 6 of the absent
    [analyze], a stable sort by the ranking key. *)
Fixpoint rank (l : list SpreadRecommendation) : list SpreadRecommendation :=
  match l with
  | [] => []
  | x :: l' => insert_ranked x (rank l')
  end.

(** Modelled from the spec: the absent
    [analyze(contracts, current_price, lot_size, strike_interval)], with
    the window size and the result limit as further arguments. *)
Definition analyze (contracts : list OptionContract)
    (current_price strike_interval : Q) (strikes_range limit : nat)
  : list SpreadRecommendation :=
  let atm := atm_strike current_price strike_interval in
  firstn limit
    (rank (spreads_of CALL strikes_range atm contracts
           ++ spreads_of PUT strikes_range atm contracts)).

End Analyzer.

(** Modelled from the spec: the ranking of step 6 said of two
    recommendations, in the spec's own words. [sorts_before a b]: [a] has
    the higher risk-reward ratio; or the ratios are equal and [a] has the
    higher combined volume; or ratio and volume are equal and the delta
    difference of [a] is closer to 0.20. [tied a b]: the three keys are
    equal. *)
Definition sorts_before (a b : SpreadRecommendation) : Prop :=
  (risk_reward_ratio b < risk_reward_ratio a)%Q \/
  (risk_reward_ratio a == risk_reward_ratio b /\ total_volume b < total_volume a)%Q \/
  (risk_reward_ratio a == risk_reward_ratio b /\ total_volume a == total_volume b /\
   off_midpoint a < off_midpoint b)%Q.

Definition tied (a b : SpreadRecommendation) : bool :=
  Qeq_bool (risk_reward_ratio a) (risk_reward_ratio b)
  && Qeq_bool (total_volume a) (total_volume b)
  && Qeq_bool (off_midpoint a) (off_midpoint b).

(** A synthetic NIFTY chain around 24000 with strikes 50 apart. *)
Definition contract (t : OptionType) (k p d v : Q) : OptionContract :=
  {| symbol := "NIFTY"; expiry := "2025-01-30"; strike := k; option_type := t;
     premium := p; delta := d; gamma := 0; theta := 0; vega := 0;
     implied_volatility := 15 # 100; volume := v |}.

Definition sample_chain : list OptionContract :=
  [ contract PUT 23700 40 (- (30 # 100)) 900;
    contract PUT 23850 70 (- (38 # 100)) 800;
    contract CALL 24000 200 (62 # 100) 1000;
    contract PUT 24000 180 (- (50 # 100)) 1000;
    contract CALL 24300 90 (40 # 100) 700;
    contract CALL 24400 70 (50 # 100) 600 ].

(** Twenty-one consecutive call strikes, 23500 to 24500. *)
Definition twenty_one_calls : list OptionContract :=
  map (fun i : nat => contract CALL (inject_Z (23500 + 50 * Z.of_nat i)) 100 (50 # 100) 1)
      (seq 0 21).

Definition flat_probability (d : Q) : Q := 50.

End SpreadAnalyzer.

(** ** The analysis's output as the table receives it *)

Module Received.

(** Modelled from the spec: the response model of the design document
    gives a recommendation the properties [risk_reward_ratio],
    [total_volume] and [delta_difference]. [shows h a r] says that the
    parsed object [a] carries the numbers of the recommendation [r] under
    these names. *)
Definition shows (h : RecommendationsTable.Heap) (a : RecommendationsTable.loc)
    (r : SpreadAnalyzer.SpreadRecommendation) : Prop :=
  RecommendationsTable.number_of h "risk_reward_ratio" a
    = Some (SpreadAnalyzer.risk_reward_ratio r) /\
  RecommendationsTable.number_of h "total_volume" a
    = Some (SpreadAnalyzer.total_volume r) /\
  RecommendationsTable.number_of h "delta_difference" a
    = Some (SpreadAnalyzer.delta_difference r).

(** Modelled from the spec: a response parsed into a heap, the
    recommendations at the locations 1, 2, ... in the order of the
    response and the array that lists them right after. *)
Definition to_object (r : SpreadAnalyzer.SpreadRecommendation)
  : gmap string RecommendationsTable.Value :=
  {[ "risk_reward_ratio" := RecommendationsTable.VNum (SpreadAnalyzer.risk_reward_ratio r);
     "total_volume" := RecommendationsTable.VNum (SpreadAnalyzer.total_volume r);
     "delta_difference" := RecommendationsTable.VNum (SpreadAnalyzer.delta_difference r) ]}.

Definition locations (n : nat) : list RecommendationsTable.loc :=
  map Pos.of_succ_nat (seq 0 n).

Definition parsed (rs : list SpreadAnalyzer.SpreadRecommendation)
  : RecommendationsTable.Heap :=
  {| RecommendationsTable.objects :=
       list_to_map (zip (locations (length rs)) (map to_object rs));
     RecommendationsTable.arrays :=
       {[ Pos.of_succ_nat (length rs) := locations (length rs) ]} |}.

End Received.

(** ** The session manager (documented in [design.md]; its Python source
    is not part of the front-end tree) *)

Module SessionManager.

Local Open Scope nat_scope.

Definition Token := nat.

(** Modelled from the spec: the [AuthSession] entity of the absent
    [angel_api.py], reduced to its token and its state. *)
Inductive SessionState := UNAUTHENTICATED | VALID | EXPIRING | INVALID.

Record AuthSession := mkSession {
  token : Token;
  state : SessionState
}.

(** Only a [VALID] session is handed out; every other state asks for a
    login or a refresh. *)
Definition usable (s : AuthSession) : bool :=
  match state s with
  | VALID => true
  | _ => false
  end.

(** Modelled from the spec: the one shared resource of the absent session
    manager. [in_flight] is the "is a login currently happening" flag of
    the mutual-exclusion region; [logins] counts the login calls issued
    to the provider and [failures] those the provider refused. *)
Record Manager := mkManager {
  session : AuthSession;
  in_flight : bool;
  logins : nat;
  failures : nat
}.

(** Where a caller of [ensure_valid_session()] stands. *)
Inductive Caller :=
| Calling
| Refreshing
| Waiting
| Returned (t : Token)
| Failed.

Definition System : Type := Manager * list Caller.

(** The moves of the scheduler and of the provider. *)
Inductive Action :=
| Enter (i : nat)
| Complete (i : nat) (ok : bool)
| Wake (i : nat).

(** Modelled from the spec: one atomic step of the absent
    [ensure_valid_session()] for caller [i].
    - [Enter]: the caller looks at the session. A usable session is
      returned at once. Otherwise, if a login is in flight the caller
      waits on it; if none is, the caller raises the flag and issues the
      login.
    - [Complete]: the provider answers the login in flight. On success
      the new session, whose token is the ordinal of the login, becomes
      current and is returned; on failure the caller fails with the
      authentication error.
    - [Wake]: a waiting caller whose refresh has ended looks again. *)
Definition fire (a : Action) (s : System) : option System :=
  let (m, cs) := s in
  match a with
  | Enter i =>
      match cs !! i with
      | Some Calling =>
          if usable (session m)
          then Some (m, <[i := Returned (token (session m))]> cs)
          else if in_flight m
          then Some (m, <[i := Waiting]> cs)
          else Some ({| session := session m; in_flight := true;
                        logins := S (logins m); failures := failures m |},
                     <[i := Refreshing]> cs)
      | _ => None
      end
  | Complete i ok =>
      match cs !! i with
      | Some Refreshing =>
          if ok
          then Some ({| session := {| token := logins m; state := VALID |};
                        in_flight := false;
                        logins := logins m; failures := failures m |},
                     <[i := Returned (logins m)]> cs)
          else Some ({| session := {| token := token (session m); state := INVALID |};
                        in_flight := false;
                        logins := logins m; failures := S (failures m) |},
                     <[i := Failed]> cs)
      | _ => None
      end
  | Wake i =>
      match cs !! i with
      | Some Waiting =>
          if in_flight m then None else Some (m, <[i := Calling]> cs)
      | _ => None
      end
  end.

(** A schedule is a list of actions; it runs as long as every action is
    enabled. *)
Fixpoint run (schedule : list Action) (s : System) : option System :=
  match schedule with
  | [] => Some s
  | a :: rest =>
      match fire a s with
      | Some s' => run rest s'
      | None => None
      end
  end.

(** [N] callers arrive while the session [s0] is current and no login is
    under way. *)
Definition start (s0 : AuthSession) (N : nat) : System :=
  ({| session := s0; in_flight := false; logins := 0; failures := 0 |},
   replicate N Calling).

Definition finished (c : Caller) : bool :=
  match c with
  | Returned _ | Failed => true
  | _ => false
  end.

(** What holds of the manager and its callers in every state a schedule
    can reach. *)
Record single_flight (s : System) : Prop := mkSingleFlight {
  one_refresher : forall i j,
      s.2 !! i = Some Refreshing -> s.2 !! j = Some Refreshing -> i = j;
  flag_has_refresher :
      in_flight s.1 = true -> exists i, s.2 !! i = Some Refreshing;
  refresher_has_flag : forall i,
      s.2 !! i = Some Refreshing -> in_flight s.1 = true;
  flag_means_unusable :
      in_flight s.1 = true -> usable (session s.1) = false;
  returned_current : forall i t,
      s.2 !! i = Some (Returned t) -> session s.1 = {| token := t; state := VALID |};
  token_is_ordinal :
      usable (session s.1) = true -> token (session s.1) = logins s.1;
  failed_counted : forall i,
      s.2 !! i = Some Failed -> failures s.1 <> 0;
  logins_counted :
      failures s.1 = 0 ->
      logins s.1 = if in_flight s.1 || usable (session s.1) then 1 else 0
}.

(** The schedule in which the first caller logs in and every other
    caller arrives after the login has succeeded. *)
Definition one_after_another (N : nat) : list Action :=
  match N with
  | O => []
  | S n => Enter 0 :: Complete 0 true :: map Enter (seq 1 n)
  end.

(** The schedule in which every caller arrives before the login
    completes: the first logs in, the others wait, wake up and find the
    new session. *)
Definition all_at_once (N : nat) : list Action :=
  match N with
  | O => []
  | S n =>
      Enter 0 :: map Enter (seq 1 n)
      ++ Complete 0 true :: map Wake (seq 1 n)
      ++ map Enter (seq 1 n)
  end.

(** The state in which the single login has succeeded and all [N] callers
    hold its session. *)
Definition logged_in : Manager :=
  {| session := {| token := 1; state := VALID |};
     in_flight := false; logins := 1; failures := 0 |}.

Definition all_returned (N : nat) : System :=
  (logged_in, replicate N (Returned 1)).

Definition expired : AuthSession := {| token := 0; state := EXPIRING |}.

End SessionManager.

(** ** Part II. Properties *)

(** *** The retry wrapper *)

Section RetryFacts.

Import ApiService.

Context {engine : Js.Builtins} {Net Data : Type}.

Local Abbreviation World := (World Net).
Local Abbreviation Eff := (Eff Net).

Section AnyRequest.

Context {X : Type} (requestFn : Eff X).

Lemma retry_loop_returns (maxRetries remaining attempt : nat) (delay : Z)
    (w w' : World) (x : X) :
  requestFn w = (inr x, w') ->
  retry_loop requestFn maxRetries (S remaining) attempt delay w = (inr (Some x), w').
Proof. intros H. simpl. now rewrite H. Qed.

Lemma retry_loop_gives_up (maxRetries remaining : nat) (delay : Z)
    (w w' : World) (e : JsError) :
  requestFn w = (inl e, w') ->
  retry_loop requestFn maxRetries (S remaining) maxRetries delay w = (inl e, w').
Proof. intros H. simpl. now rewrite H, Nat.eqb_refl. Qed.

Lemma retry_loop_tries_again (maxRetries remaining attempt : nat) (delay : Z)
    (w w' : World) (e : JsError) :
  requestFn w = (inl e, w') ->
  attempt <> maxRetries ->
  retry_loop requestFn maxRetries (S remaining) attempt delay w =
  retry_loop requestFn maxRetries remaining (S attempt) (delay * 2)
    (after_backoff attempt maxRetries delay w').
Proof.
  intros H Hne. simpl. rewrite H.
  destruct (Nat.eqb_spec attempt maxRetries) as [->|_]; [contradiction|].
  reflexivity.
Qed.

(** C4. A request that fails on the first two attempts (with any error,
    a rate-limit answer included) and succeeds on the third is answered
    with the third attempt's result: [retryRequest] returns it and
    throws nothing. The attempt budget must allow a third attempt, which
    the default of 3 does. *)
Theorem retryRequest_third_attempt_succeeds
    (maxRetries : option nat) (delay : option Z)
    (w0 w1 w2 w3 : World) (e1 e2 : JsError) (x : X) :
  (3 <= default 3 maxRetries)%nat ->
  requestFn w0 = (inl e1, w1) ->
  requestFn (after_backoff 1 (default 3%nat maxRetries) (default 1000 delay) w1)
    = (inl e2, w2) ->
  requestFn (after_backoff 2 (default 3%nat maxRetries) (default 1000 delay * 2) w2)
    = (inr x, w3) ->
  retryRequest requestFn maxRetries delay w0 = (inr (Some x), w3).
Proof.
  intros Hmr H1 H2 H3. unfold retryRequest.
  set (mr := default 3%nat maxRetries) in *.
  set (d := default 1000 delay) in *.
  destruct mr as [|[|[|k]]] eqn:E; try lia.
  rewrite (retry_loop_tries_again _ _ _ _ _ _ _ H1) by lia.
  rewrite (retry_loop_tries_again _ _ _ _ _ _ _ H2) by lia.
  now rewrite (retry_loop_returns _ _ _ _ _ _ _ H3).
Qed.

End AnyRequest.

Section OverHttp.

Context (http : Request -> Net -> (AxiosError + Data) * Net) (req : Request).

Lemma api_call_trace (w : World) :
  trace (snd (api_call http req w)) = trace w ++ [EvRequest req].
Proof.
  unfold api_call. simpl. now destruct (http req (net w)) as [[err|d] n'].
Qed.

Lemma api_call_unreachable (w : World) :
  fst (http req (net w)) = inl ErrRequest ->
  exists w', api_call http req w = (inl network_error, w') /\
             trace w' = trace w ++ [EvRequest req].
Proof.
  intros H. unfold api_call. simpl.
  destruct (http req (net w)) as [[err|d] n']; simpl in H; [|discriminate].
  injection H as ->. eexists. split; reflexivity.
Qed.

Lemma requests_of_app (t1 t2 : list Event) :
  requests_of (t1 ++ t2) = requests_of t1 ++ requests_of t2.
Proof. apply omap_app. Qed.

Lemma sleeps_of_app (t1 t2 : list Event) :
  sleeps_of (t1 ++ t2) = sleeps_of t1 ++ sleeps_of t2.
Proof. apply omap_app. Qed.

Lemma after_backoff_trace (attempt maxRetries : nat) (delay : Z) (w : World) :
  trace (after_backoff attempt maxRetries delay w)
  = trace w ++ [EvWarn attempt maxRetries delay; EvSleep delay].
Proof. unfold after_backoff, backoff, bind, emit. simpl. now rewrite <- app_assoc. Qed.

(** Whatever the server does, the wrapper sends the request at most
    [remaining] times, and at least once when it has an iteration left. *)
Lemma retry_loop_requests (maxRetries remaining attempt : nat) (delay : Z) (w : World) :
  exists k, (k <= remaining)%nat /\ (remaining <> 0 -> k <> 0)%nat /\
    requests_of (trace (snd (retry_loop (api_call http req) maxRetries
                               remaining attempt delay w)))
    = requests_of (trace w) ++ repeat req k.
Proof.
  revert attempt delay w.
  induction remaining as [|k IH]; intros attempt delay w.
  - exists 0%nat. simpl. rewrite app_nil_r. auto.
  - pose proof (api_call_trace w) as Ht.
    destruct (api_call http req w) as [[e|d] w1] eqn:Hcall; simpl in Ht.
    + destruct (Nat.eq_dec attempt maxRetries) as [->|Hne].
      * exists 1%nat. rewrite (retry_loop_gives_up _ _ _ _ _ _ _ Hcall).
        simpl. rewrite Ht, requests_of_app. repeat split; auto; lia.
      * rewrite (retry_loop_tries_again _ _ _ _ _ _ _ _ Hcall Hne).
        destruct (IH (S attempt) (delay * 2) (after_backoff attempt maxRetries delay w1))
          as (k' & Hle & _ & Hreq).
        exists (S k'). split; [lia|]. split; [lia|].
        rewrite Hreq, after_backoff_trace, Ht, !requests_of_app. simpl.
        now rewrite <- !app_assoc.
    + exists 1%nat. rewrite (retry_loop_returns _ _ _ _ _ _ _ _ Hcall).
      simpl. rewrite Ht, requests_of_app. repeat split; auto; lia.
Qed.

(** When the transport fails every time, every iteration is used. *)
Lemma retry_loop_unreachable (maxRetries : nat) :
  (forall n, fst (http req n) = inl ErrRequest) ->
  forall (remaining attempt : nat) (delay : Z) (w : World),
    (attempt + remaining = maxRetries)%nat ->
    exists w',
      retry_loop (api_call http req) maxRetries (S remaining) attempt delay w
        = (inl network_error, w') /\
      requests_of (trace w') = requests_of (trace w) ++ repeat req (S remaining) /\
      sleeps_of (trace w') = sleeps_of (trace w) ++ doubling delay remaining.
Proof.
  intros Hdown. induction remaining as [|k IH]; intros attempt delay w Hsum.
  - destruct (api_call_unreachable w (Hdown _)) as (w1 & Hcall & Ht).
    exists w1. assert (attempt = maxRetries) as -> by lia.
    rewrite (retry_loop_gives_up _ _ _ _ _ _ _ Hcall).
    rewrite Ht, requests_of_app, sleeps_of_app. simpl.
    now rewrite app_nil_r.
  - destruct (api_call_unreachable w (Hdown _)) as (w1 & Hcall & Ht).
    rewrite (retry_loop_tries_again _ _ _ _ _ _ _ _ Hcall) by lia.
    destruct (IH (S attempt) (delay * 2) (after_backoff attempt maxRetries delay w1))
      as (w' & Hrun & Hreq & Hsl); [lia|].
    exists w'. split; [exact Hrun|].
    rewrite Hreq, Hsl, after_backoff_trace, Ht.
    rewrite !requests_of_app, !sleeps_of_app. simpl.
    now rewrite <- !app_assoc.
Qed.

(** C5. When every attempt of a request dies in transport (the request
    leaves, no response arrives), [retryRequest] makes exactly
    [maxRetries] attempts (3 by default), waits between consecutive
    attempts for [delay], [2 * delay], [4 * delay], ... milliseconds
    (1000, 2000 by default) and then throws the interceptor's network
    error to its caller. *)
Theorem retryRequest_network_failure_bounded
    (maxRetries : option nat) (delay : option Z) (w : World) :
  (1 <= default 3 maxRetries)%nat ->
  (forall n, fst (http req n) = inl ErrRequest) ->
  exists w',
    retryRequest (api_call http req) maxRetries delay w = (inl network_error, w') /\
    requests_of (trace w')
      = requests_of (trace w) ++ repeat req (default 3%nat maxRetries) /\
    sleeps_of (trace w')
      = sleeps_of (trace w)
        ++ doubling (default 1000 delay) (default 3%nat maxRetries - 1).
Proof.
  intros Hmr Hdown. unfold retryRequest.
  destruct (default 3%nat maxRetries) as [|k] eqn:E; [lia|].
  replace (S k - 1)%nat with k by lia.
  apply retry_loop_unreachable; [exact Hdown | lia].
Qed.

End OverHttp.

End RetryFacts.

(** Concrete runs, on the engine of the examples. *)
Section RetryRuns.

Local Existing Instance Js.ascii_engine.

(** The server that answers 429 twice lets the default wrapper succeed. *)
Lemma retryRequest_third_attempt_succeeds_witness :
  fst (ApiService.retryRequest
         (ApiService.api_call ApiService.rate_limited_twice
            (ApiService.recommendations_request None None))
         None None ApiService.fresh_world)
  = inr (Some "recommendations").
Proof.
  erewrite (retryRequest_third_attempt_succeeds
              (ApiService.api_call ApiService.rate_limited_twice
                 (ApiService.recommendations_request None None))
              None None ApiService.fresh_world).
  - reflexivity.
  - simpl. lia.
  - reflexivity.
  - reflexivity.
  - reflexivity.
Defined.

(** Against the unreachable server the default wrapper sends three
    requests, sleeps 1000 ms and 2000 ms, and throws. *)
Lemma retryRequest_network_failure_bounded_witness :
  exists w',
    ApiService.retryRequest
      (ApiService.api_call ApiService.unreachable
         (ApiService.recommendations_request None None))
      None None ApiService.fresh_world
    = (inl ApiService.network_error, w') /\
    ApiService.requests_of (ApiService.trace w')
      = repeat (ApiService.recommendations_request None None) 3 /\
    ApiService.sleeps_of (ApiService.trace w') = [1000; 2000].
Proof.
  apply (retryRequest_network_failure_bounded ApiService.unreachable
           (ApiService.recommendations_request None None) None None
           ApiService.fresh_world).
  - simpl. lia.
  - intros n. reflexivity.
Defined.

End RetryRuns.

(** *** The symbol in outgoing requests *)

Section RequestFacts.

Import ApiService.

Context {engine : Js.Builtins}.

Lemma toUpperCase_ascii (s : string) :
  Js.all_ascii s = true -> toUpperCase s = ascii_toUpperCase s.
Proof. intros Hs. unfold toUpperCase. now rewrite Hs. Qed.

Lemma toUpperCase_unicode (s : string) :
  Js.all_ascii s = false -> toUpperCase s = Js.unicode_toUpperCase s.
Proof. intros Hs. unfold toUpperCase. now rewrite Hs. Qed.

Lemma upper_ascii_lower (c : ascii) :
  is_lower_letter c ->
  upper_ascii c = ascii_of_nat (nat_of_ascii c - 32).
Proof.
  unfold is_lower_letter, upper_ascii. intros [Hlo Hhi]. cbv zeta.
  apply Nat.leb_le in Hlo, Hhi. now rewrite Hlo, Hhi.
Qed.

Lemma upper_ascii_other (c : ascii) :
  ~ is_lower_letter c -> upper_ascii c = c.
Proof.
  unfold is_lower_letter, upper_ascii. intros Hc. cbv zeta.
  destruct (Nat.leb_spec 97 (nat_of_ascii c)) as [Hlo|Hlo]; [|reflexivity].
  destruct (Nat.leb_spec (nat_of_ascii c) 122) as [Hhi|Hhi]; [|reflexivity].
  exfalso. apply Hc. lia.
Qed.

Lemma is_lower_letter_dec (c : ascii) : is_lower_letter c \/ ~ is_lower_letter c.
Proof. unfold is_lower_letter. lia. Qed.

Lemma capital_of_upper_ascii (c : ascii) : capital_of c (upper_ascii c).
Proof.
  split; intros Hc.
  - rewrite (upper_ascii_lower c Hc). unfold is_lower_letter in Hc.
    rewrite nat_ascii_embedding by lia. lia.
  - now apply upper_ascii_other.
Qed.

Lemma uppercased_ascii_toUpperCase (s : string) : uppercased s (ascii_toUpperCase s).
Proof.
  induction s as [|c s IH]; simpl; constructor; [apply capital_of_upper_ascii|exact IH].
Qed.

Lemma upper_ascii_same_letter (c d : ascii) :
  same_letter c d -> upper_ascii c = upper_ascii d.
Proof.
  assert (forall a b : ascii,
             is_lower_letter a -> (nat_of_ascii b + 32 = nat_of_ascii a)%nat ->
             upper_ascii a = upper_ascii b) as Hcase.
  { intros a b Ha Hab.
    rewrite (upper_ascii_lower a Ha), upper_ascii_other.
    - replace (nat_of_ascii a - 32)%nat with (nat_of_ascii b) by lia.
      apply ascii_nat_embedding.
    - unfold is_lower_letter in *. lia. }
  intros [->|[[Hc Hcd]|[Hd Hdc]]]; [reflexivity|now apply Hcase|].
  symmetry. now apply Hcase.
Qed.

Lemma same_letter_ascii (c d : ascii) :
  same_letter c d -> Js.is_ascii c = true -> Js.is_ascii d = true.
Proof.
  unfold Js.is_ascii, is_lower_letter.
  intros [->|[[Hc Hcd]|[Hd Hdc]]] Hasc; [exact Hasc| |];
    apply Nat.ltb_lt; apply Nat.ltb_lt in Hasc; unfold is_lower_letter in *; lia.
Qed.

Lemma differ_in_case_only_upper (s t : string) :
  differ_in_case_only s t -> ascii_toUpperCase s = ascii_toUpperCase t.
Proof.
  induction 1 as [|c d s t Hcd _ IH]; [reflexivity|].
  simpl. now rewrite (upper_ascii_same_letter c d Hcd), IH.
Qed.

Lemma differ_in_case_only_ascii (s t : string) :
  differ_in_case_only s t -> Js.all_ascii s = true -> Js.all_ascii t = true.
Proof.
  induction 1 as [|c d s t Hcd _ IH]; [reflexivity|].
  simpl. intros Hs. apply andb_prop in Hs as [Hc Hs].
  now rewrite (same_letter_ascii c d Hcd Hc), (IH Hs).
Qed.

(** Symbols in ASCII that differ in case only are upper-cased to the
    same string. *)
Lemma toUpperCase_case_insensitive (s t : string) :
  Js.all_ascii s = true -> differ_in_case_only s t -> toUpperCase s = toUpperCase t.
Proof.
  intros Hs Hst.
  rewrite (toUpperCase_ascii s Hs),
    (toUpperCase_ascii t (differ_in_case_only_ascii s t Hst Hs)).
  now apply differ_in_case_only_upper.
Qed.

Lemma chart_data_symbol (symbol : string) (interval fromDate toDate : option string) :
  field "symbol" (params (chart_data_request (Some symbol) interval fromDate toDate))
  = Some (PStr (toUpperCase symbol)).
Proof.
  unfold chart_data_request.
  destruct (truthy fromDate), (truthy toDate); reflexivity.
Qed.

Lemma nifty_in_any_case : differ_in_case_only "nifty" "NIFTY".
Proof.
  repeat (apply case_cons;
          [right; left; unfold is_lower_letter; vm_compute; lia|]).
  apply case_nil.
Qed.

(** C10. Whatever symbol a caller passes, the three requests carry one
    and the same string for it: in the body of the recommendations
    request, at the end of the path of the quick-recommendations request
    and in the query of the chart-data request. For a symbol in ASCII
    that string is the symbol upper-cased: as long as the symbol, each
    small letter replaced by its capital, every other character kept; for
    any other symbol it is what the engine's [toUpperCase] answers. Two
    symbols in ASCII that differ in the case of letters only give the
    same three requests, so ["nifty"] gives the requests of ["NIFTY"],
    which carry ["NIFTY"]. *)
Theorem symbol_is_sent_uppercased
    (strikesRange : option Z) (interval fromDate toDate : option string) :
  (forall symbol : string,
     exists sent : string,
       field "symbol" (body (recommendations_request (Some symbol) strikesRange))
         = Some (PStr sent) /\
       url (quick_recommendations_request (Some symbol))
         = "/api/recommendations/" +:+ sent /\
       field "symbol" (params (chart_data_request (Some symbol) interval fromDate toDate))
         = Some (PStr sent) /\
       (Js.all_ascii symbol = true -> uppercased symbol sent) /\
       (Js.all_ascii symbol = false -> sent = Js.unicode_toUpperCase symbol)) /\
  (forall s t : string,
     Js.all_ascii s = true -> differ_in_case_only s t ->
     recommendations_request (Some s) strikesRange
       = recommendations_request (Some t) strikesRange /\
     quick_recommendations_request (Some s) = quick_recommendations_request (Some t) /\
     chart_data_request (Some s) interval fromDate toDate
       = chart_data_request (Some t) interval fromDate toDate) /\
  (recommendations_request (Some "nifty") strikesRange
     = recommendations_request (Some "NIFTY") strikesRange /\
   quick_recommendations_request (Some "nifty")
     = quick_recommendations_request (Some "NIFTY") /\
   chart_data_request (Some "nifty") interval fromDate toDate
     = chart_data_request (Some "NIFTY") interval fromDate toDate) /\
  (field "symbol" (body (recommendations_request (Some "nifty") strikesRange))
     = Some (PStr "NIFTY") /\
   url (quick_recommendations_request (Some "nifty")) = "/api/recommendations/NIFTY" /\
   field "symbol" (params (chart_data_request (Some "nifty") interval fromDate toDate))
     = Some (PStr "NIFTY")).
Proof.
  assert (forall s t : string,
             Js.all_ascii s = true -> differ_in_case_only s t ->
             recommendations_request (Some s) strikesRange
               = recommendations_request (Some t) strikesRange /\
             quick_recommendations_request (Some s)
               = quick_recommendations_request (Some t) /\
             chart_data_request (Some s) interval fromDate toDate
               = chart_data_request (Some t) interval fromDate toDate) as Hcase.
  { intros s t Hs Hst.
    pose proof (toUpperCase_case_insensitive s t Hs Hst) as E.
    unfold recommendations_request, quick_recommendations_request, chart_data_request.
    cbn [from_option id]. now rewrite E. }
  split; [|split; [exact Hcase|split]].
  - intros symbol. exists (toUpperCase symbol).
    split; [reflexivity|]. split; [reflexivity|]. split; [apply chart_data_symbol|].
    split; intros Hs.
    + rewrite (toUpperCase_ascii symbol Hs). apply uppercased_ascii_toUpperCase.
    + now apply toUpperCase_unicode.
  - apply Hcase; [reflexivity|apply nifty_in_any_case].
  - split; [reflexivity|]. split; [reflexivity|]. apply chart_data_symbol.
Qed.

(** Each attempt of a fetch sends the request built from the arguments,
    so what holds of the built request holds of every request on the
    wire. *)
Lemma fetchRecommendations_requests {Net Data : Type}
    (http : Request -> Net -> (AxiosError + Data) * Net)
    (symbol : option string) (strikesRange : option Z) (w : World Net) :
  exists k, (1 <= k <= 3)%nat /\
    requests_of (trace (snd (fetchRecommendations http symbol strikesRange w)))
    = requests_of (trace w) ++ repeat (recommendations_request symbol strikesRange) k.
Proof.
  unfold fetchRecommendations, retryRequest. simpl.
  destruct (retry_loop_requests http (recommendations_request symbol strikesRange)
              3 3 1 1000 w) as (k & Hle & Hpos & Hreq).
  exists k. split; [|exact Hreq].
  specialize (Hpos ltac:(discriminate)). lia.
Qed.

End RequestFacts.

(** Concrete symbols, on the engine of the examples. *)
Section RequestRuns.

Local Existing Instance Js.ascii_engine.

Example toUpperCase_nifty : ApiService.toUpperCase "nifty" = "NIFTY".
Proof. reflexivity. Qed.

Example toUpperCase_mixed : ApiService.toUpperCase "BankNifty" = "BANKNIFTY".
Proof. reflexivity. Qed.

Example toUpperCase_keeps_digits :
  ApiService.toUpperCase "nifty50-Mid_cap" = "NIFTY50-MID_CAP".
Proof. reflexivity. Qed.

End RequestRuns.

(** *** The retry wrapper against an arbitrary server *)

Section RetryShape.

Import ApiService.

Context {engine : Js.Builtins} {Net Data : Type}.
Context (http : Request -> Net -> (AxiosError + Data) * Net) (req : Request).

Local Abbreviation World := (World Net).

Lemma net_after_S (n : Net) (k : nat) :
  net_after http req n (S k) = net_after http req (snd (http req n)) k.
Proof.
  unfold net_after.
  exact (Nat.iter_succ_r k (fun n' => snd (http req n')) n).
Qed.

Lemma api_call_net (w : World) :
  net (snd (api_call http req w)) = snd (http req (net w)).
Proof. unfold api_call. simpl. now destruct (http req (net w)) as [[err|d] n']. Qed.

Lemma api_call_result (w : World) :
  fst (api_call http req w)
  = match fst (http req (net w)) with
    | inl err => inl (response_rejected err)
    | inr d => inr d
    end.
Proof. unfold api_call. simpl. now destruct (http req (net w)) as [[err|d] n']. Qed.

Lemma after_backoff_net (attempt maxRetries : nat) (delay : Z) (w : World) :
  net (after_backoff attempt maxRetries delay w) = net w.
Proof. reflexivity. Qed.

Lemma doubling_snoc (d : Z) (k : nat) :
  doubling d (S k) = d :: doubling (d * 2) k.
Proof. reflexivity. Qed.

(** The shape of every run of the loop: [k] requests, [k - 1] sleeps with
    doubling delays, and the server left where [k] answers put it. The
    loop is entered as [retryRequest] enters it, with
    [attempt + remaining = maxRetries + 1]. *)
Lemma retry_loop_shape (maxRetries : nat) :
  forall (remaining attempt : nat) (delay : Z) (w : World),
    (attempt + remaining = S maxRetries)%nat ->
    exists k : nat,
      (k <= remaining)%nat /\ (remaining <> 0%nat -> k <> 0%nat) /\
      let w' := snd (retry_loop (api_call http req) maxRetries remaining attempt delay w) in
      requests_of (trace w') = requests_of (trace w) ++ repeat req k /\
      sleeps_of (trace w') = sleeps_of (trace w) ++ doubling delay (k - 1) /\
      net w' = net_after http req (net w) k.
Proof.
  induction remaining as [|r IH]; intros attempt delay w Hsum.
  - exists 0%nat. simpl. rewrite !app_nil_r. auto.
  - pose proof (api_call_trace http req w) as Ht.
    pose proof (api_call_net w) as Hn.
    destruct (api_call http req w) as [[e|d] w1] eqn:Hcall; simpl in Ht, Hn.
    + destruct (Nat.eq_dec attempt maxRetries) as [->|Hne].
      * exists 1%nat. rewrite (retry_loop_gives_up _ _ _ _ _ _ _ Hcall).
        simpl. rewrite Ht, requests_of_app, sleeps_of_app, Hn. simpl.
        rewrite app_nil_r. repeat split; auto; lia.
      * rewrite (retry_loop_tries_again _ _ _ _ _ _ _ _ Hcall Hne).
        destruct (IH (S attempt) (delay * 2) (after_backoff attempt maxRetries delay w1))
          as (k & Hle & Hpos & Hreq & Hsl & Hnet); [lia|].
        assert (r <> 0%nat) as Hr by lia. specialize (Hpos Hr).
        exists (S k). split; [lia|]. split; [lia|]. cbv zeta in *.
        rewrite Hreq, Hsl, Hnet, after_backoff_trace, after_backoff_net, Ht, Hn.
        rewrite !requests_of_app, !sleeps_of_app, net_after_S. simpl.
        rewrite <- !app_assoc. simpl.
        destruct k as [|k]; [contradiction|].
        replace (S (S k) - 1)%nat with (S k) by lia.
        replace (S k - 1)%nat with k by lia.
        rewrite Nat.sub_0_r. auto.
    + exists 1%nat. rewrite (retry_loop_returns _ _ _ _ _ _ _ _ Hcall).
      simpl. rewrite Ht, requests_of_app, sleeps_of_app, Hn. simpl.
      rewrite app_nil_r. repeat split; auto; lia.
Qed.

(** X1. Whatever the server answers, a service call sends its request at
    least once and at most [maxRetries] times (3 by default), sleeps
    exactly once between two consecutive requests, for [delay],
    [2 * delay], [4 * delay], ... milliseconds, and sends nothing when
    [maxRetries] is 0. *)
Theorem retryRequest_requests_and_sleeps
    (maxRetries : option nat) (delay : option Z) (w : World) :
  exists k : nat,
    (k <= default 3 maxRetries)%nat /\
    (default 3%nat maxRetries <> 0%nat -> 1 <= k)%nat /\
    let w' := snd (retryRequest (api_call http req) maxRetries delay w) in
    requests_of (trace w') = requests_of (trace w) ++ repeat req k /\
    sleeps_of (trace w')
      = sleeps_of (trace w) ++ doubling (default 1000 delay) (k - 1) /\
    net w' = net_after http req (net w) k.
Proof.
  unfold retryRequest.
  destruct (retry_loop_shape (default 3%nat maxRetries) (default 3%nat maxRetries)
              1 (default 1000 delay) w) as (k & Hle & Hpos & H); [lia|].
  exists k. split; [exact Hle|]. split; [|exact H].
  intros Hne. specialize (Hpos Hne). lia.
Qed.

Lemma total_sleep_app (t1 t2 : list Event) :
  total_sleep (t1 ++ t2) = total_sleep t1 + total_sleep t2.
Proof.
  unfold total_sleep. rewrite sleeps_of_app.
  induction (sleeps_of t1) as [|d l IH]; simpl; [reflexivity|]. rewrite IH. lia.
Qed.

Lemma sum_doubling (d : Z) (k : nat) :
  fold_right Z.add 0 (doubling d k) = d * (2 ^ Z.of_nat k - 1).
Proof.
  revert d. induction k as [|k IH]; intros d.
  - simpl. lia.
  - cbn [doubling fold_right]. rewrite IH.
    rewrite Nat2Z.inj_succ, Z.pow_succ_r by lia. lia.
Qed.

Lemma sum_sleeps_split (l1 l2 : list Z) :
  fold_right Z.add 0 (l1 ++ l2) = fold_right Z.add 0 l1 + fold_right Z.add 0 l2.
Proof. induction l1 as [|d l IH]; simpl; [reflexivity|]. rewrite IH. lia. Qed.

(** X2. The back-off of one service call is bounded: with a non-negative
    initial delay the call sleeps at most
    [delay * (2 ^ (maxRetries - 1) - 1)] milliseconds in total (3000 ms
    with the defaults), whatever the server does. *)
Theorem retryRequest_total_sleep_bounded
    (maxRetries : option nat) (delay : option Z) (w : World) :
  0 <= default 1000 delay ->
  total_sleep (trace (snd (retryRequest (api_call http req) maxRetries delay w)))
  <= total_sleep (trace w)
     + default 1000 delay * (2 ^ Z.of_nat (default 3%nat maxRetries - 1) - 1).
Proof.
  intros Hd. unfold retryRequest.
  destruct (retry_loop_shape (default 3%nat maxRetries) (default 3%nat maxRetries)
              1 (default 1000 delay) w) as (k & Hle & _ & _ & Hsl & _); [lia|].
  unfold total_sleep. rewrite Hsl, sum_sleeps_split, sum_doubling.
  assert (2 ^ Z.of_nat (k - 1) <= 2 ^ Z.of_nat (default 3%nat maxRetries - 1)).
  { apply Z.pow_le_mono_r; lia. }
  nia.
Qed.

(** The loop, entered as [retryRequest] enters it with an iteration
    left, does not fall off its end: when it returns, it returns what
    the attempt it has just made returned, in the world that attempt
    left. *)
Lemma retry_loop_resolves {X : Type} (requestFn : Eff Net X) (maxRetries : nat) :
  forall (remaining attempt : nat) (delay : Z) (w : World) (v : option X),
    (attempt + remaining = S maxRetries)%nat -> remaining <> 0%nat ->
    fst (retry_loop requestFn maxRetries remaining attempt delay w) = inr v ->
    exists (x : X) (w1 : World),
      v = Some x /\
      requestFn w1
      = (inr x, snd (retry_loop requestFn maxRetries remaining attempt delay w)).
Proof.
  induction remaining as [|r IH]; intros attempt delay w v Hsum Hr Hres; [contradiction|].
  destruct (requestFn w) as [[e|x] w1] eqn:Hcall.
  - destruct (Nat.eq_dec attempt maxRetries) as [->|Hne].
    + rewrite (retry_loop_gives_up _ _ _ _ _ _ _ Hcall) in Hres. discriminate.
    + rewrite (retry_loop_tries_again _ _ _ _ _ _ _ _ Hcall Hne) in Hres |- *.
      apply IH; [lia|lia|exact Hres].
  - rewrite (retry_loop_returns _ _ _ _ _ _ _ _ Hcall) in Hres |- *.
    injection Hres as <-. exists x, w. split; [reflexivity|exact Hcall].
Qed.

(** X3. With an attempt budget of 0 the wrapper never calls the request
    function: it resolves to [undefined] and leaves the world as it was.
    With a budget of at least one attempt, and for every request
    function, what the wrapper resolves to is what an attempt of the
    request function resolved to, and the wrapper does nothing after
    that attempt: no warning, no sleep, no further request. *)
Theorem retryRequest_resolves_with_an_attempt {X : Type} (requestFn : Eff Net X)
    (maxRetries : option nat) (delay : option Z) (w : World) :
  (default 3%nat maxRetries = 0%nat ->
   retryRequest requestFn maxRetries delay w = (inr None, w)) /\
  (default 3%nat maxRetries <> 0%nat ->
   forall v : option X,
     fst (retryRequest requestFn maxRetries delay w) = inr v ->
     exists (x : X) (w1 : World),
       v = Some x /\
       requestFn w1 = (inr x, snd (retryRequest requestFn maxRetries delay w))).
Proof.
  unfold retryRequest. split.
  - intros ->. reflexivity.
  - intros Hmr v Hres. apply retry_loop_resolves; [lia|exact Hmr|exact Hres].
Qed.

Lemma retry_loop_first_success (maxRetries : nat) (d : Data) :
  forall (k remaining attempt : nat) (delay : Z) (w : World),
    (attempt + remaining = S maxRetries)%nat ->
    (k < remaining)%nat ->
    (forall j, (j < k)%nat ->
       exists err, fst (http req (net_after http req (net w) j)) = inl err) ->
    fst (http req (net_after http req (net w) k)) = inr d ->
    let r := retry_loop (api_call http req) maxRetries remaining attempt delay w in
    fst r = inr (Some d) /\
    requests_of (trace (snd r)) = requests_of (trace w) ++ repeat req (S k) /\
    sleeps_of (trace (snd r)) = sleeps_of (trace w) ++ doubling delay k.
Proof.
  induction k as [|k IH]; intros remaining attempt delay w Hsum Hk Hfail Hok;
    (destruct remaining as [|r]; [lia|]);
    pose proof (api_call_trace http req w) as Ht;
    pose proof (api_call_net w) as Hn;
    pose proof (api_call_result w) as Hr;
    destruct (api_call http req w) as [[e|x] w1] eqn:Hcall; simpl in Ht, Hn, Hr.
  - simpl in Hok. rewrite Hok in Hr. discriminate.
  - simpl in Hok. rewrite Hok in Hr. injection Hr as ->.
    cbv zeta. rewrite (retry_loop_returns _ _ _ _ _ _ _ _ Hcall). simpl.
    rewrite Ht, requests_of_app, sleeps_of_app. simpl. now rewrite app_nil_r.
  - assert (attempt <> maxRetries) as Hne by lia.
    cbv zeta. rewrite (retry_loop_tries_again _ _ _ _ _ _ _ _ Hcall Hne).
    destruct (IH r (S attempt) (delay * 2) (after_backoff attempt maxRetries delay w1))
      as (Hres & Hreq & Hsl).
    + lia.
    + lia.
    + intros j Hj. rewrite after_backoff_net, Hn, <- net_after_S. apply Hfail. lia.
    + rewrite after_backoff_net, Hn, <- net_after_S. exact Hok.
    + split; [exact Hres|].
      rewrite Hreq, Hsl, after_backoff_trace, Ht, !requests_of_app, !sleeps_of_app.
      simpl. now rewrite <- !app_assoc.
  - destruct (Hfail 0%nat ltac:(lia)) as [err Herr]. simpl in Herr.
    rewrite Herr in Hr. discriminate.
Qed.

(** X4. When the request fails [k] times and then succeeds, and the
    budget allows [k + 1] attempts, the caller receives the result of
    attempt [k + 1]: the earlier errors are swallowed, [k + 1] requests
    have been sent and [k] sleeps of doubling length taken. *)
Theorem retryRequest_returns_first_success
    (maxRetries : option nat) (delay : option Z) (w : World) (k : nat) (d : Data) :
  (k < default 3 maxRetries)%nat ->
  (forall j, (j < k)%nat ->
     exists err, fst (http req (net_after http req (net w) j)) = inl err) ->
  fst (http req (net_after http req (net w) k)) = inr d ->
  let r := retryRequest (api_call http req) maxRetries delay w in
  fst r = inr (Some d) /\
  requests_of (trace (snd r)) = requests_of (trace w) ++ repeat req (S k) /\
  sleeps_of (trace (snd r)) = sleeps_of (trace w) ++ doubling (default 1000 delay) k.
Proof.
  intros Hk Hfail Hok. unfold retryRequest.
  apply retry_loop_first_success; [lia|exact Hk|exact Hfail|exact Hok].
Qed.

Lemma retry_loop_last_error (maxRetries : nat) :
  forall (r attempt : nat) (delay : Z) (w : World) (errs : nat -> AxiosError),
    (attempt + r = maxRetries)%nat ->
    (forall j, (j <= r)%nat ->
       fst (http req (net_after http req (net w) j)) = inl (errs j)) ->
    fst (retry_loop (api_call http req) maxRetries (S r) attempt delay w)
    = inl (response_rejected (errs r)).
Proof.
  induction r as [|r IH]; intros attempt delay w errs Hsum Hfail;
    pose proof (api_call_net w) as Hn;
    pose proof (api_call_result w) as Hr;
    pose proof (Hfail 0%nat ltac:(lia)) as H0; simpl in H0;
    destruct (api_call http req w) as [[e|x] w1] eqn:Hcall; simpl in Hn, Hr;
    rewrite H0 in Hr; try discriminate; injection Hr as ->.
  - assert (attempt = maxRetries) as -> by lia.
    now rewrite (retry_loop_gives_up _ _ _ _ _ _ _ Hcall).
  - rewrite (retry_loop_tries_again _ _ _ _ _ _ _ _ Hcall) by lia.
    apply (IH (S attempt) (delay * 2) _ (fun j => errs (S j))); [lia|].
    intros j Hj. rewrite after_backoff_net, Hn, <- net_after_S. apply Hfail. lia.
Qed.

(** X5. When every attempt fails, the error the caller catches is the one
    of the last attempt, as the response interceptor words it; the errors
    of the earlier attempts are only logged. *)
Theorem retryRequest_throws_last_error
    (maxRetries : option nat) (delay : option Z) (w : World)
    (errs : nat -> AxiosError) :
  (1 <= default 3 maxRetries)%nat ->
  (forall j, (j < default 3 maxRetries)%nat ->
     fst (http req (net_after http req (net w) j)) = inl (errs j)) ->
  fst (retryRequest (api_call http req) maxRetries delay w)
  = inl (response_rejected (errs (default 3%nat maxRetries - 1)%nat)).
Proof.
  intros Hmr Hfail. unfold retryRequest.
  destruct (default 3%nat maxRetries) as [|m] eqn:E; [lia|].
  replace (S m - 1)%nat with m by lia.
  apply retry_loop_last_error; [lia|].
  intros j Hj. apply Hfail. lia.
Qed.

End RetryShape.

Section InterceptorFacts.

Import ApiService.

Context {engine : Js.Builtins}.

Lemma truthy_nonempty (o : option string) (s : string) :
  truthy o = Some s -> s <> "".
Proof. destruct o as [[|c t]|]; simpl; intros [= <-]; discriminate. Qed.

Lemma or_else_nonempty (o : option string) (d : string) :
  d <> "" -> or_else o d <> "".
Proof.
  intros Hd. unfold or_else. destruct (truthy o) as [s|] eqn:E; [|exact Hd].
  eapply truthy_nonempty; eassumption.
Qed.

(** [a || b] on a property that is a string, [null] or missing is a
    non-empty string when [b] is one. *)
Lemma or_value_text (a : option Body) (b : Body) :
  is_text a = true ->
  (exists s, b = BStr s /\ s <> "") ->
  exists s, or_value a b = BStr s /\ s <> "".
Proof.
  intros Ha Hb. destruct a as [[| | |[|c t]| |]|]; try discriminate; simpl; try exact Hb.
  eexists. split; [reflexivity|discriminate].
Qed.

Lemma response_rejected_nonempty (err : AxiosError) (msg : string) :
  match err with ErrResponse _ data => text_fields data = true | _ => True end ->
  response_rejected err = Error msg -> msg <> "".
Proof.
  destruct err as [status data| |message]; intros Htext.
  - apply andb_prop in Htext as [Hm Hd].
    destruct (or_value_text (member "message" data)
                (or_value (member "detail" data)
                   (BStr ("Server error: " +:+ pretty status))) Hm) as (s & Hs & Hne).
    { apply or_value_text; [exact Hd|].
      eexists. split; [reflexivity|discriminate]. }
    unfold response_rejected. rewrite Hs.
    destruct data; intros [= <-]; exact Hne.
  - intros [= <-]. discriminate.
  - intros [= <-]. apply or_else_nonempty. discriminate.
Qed.

Context {Net Data : Type}.
Context (http : Request -> Net -> (AxiosError + Data) * Net) (req : Request).

(** Whatever the wrapper throws was thrown by the interceptor for an
    answer of the server. *)
Lemma retry_loop_thrown (maxRetries : nat) :
  forall (remaining attempt : nat) (delay : Z) (w : World Net) (e : JsError),
    fst (retry_loop (api_call http req) maxRetries remaining attempt delay w) = inl e ->
    exists (n : Net) (err : AxiosError),
      fst (http req n) = inl err /\ e = response_rejected err.
Proof.
  induction remaining as [|r IH]; intros attempt delay w e Hres; [discriminate|].
  pose proof (api_call_result http req w) as Hr.
  destruct (api_call http req w) as [[e1|x] w1] eqn:Hcall; simpl in Hr.
  - destruct (Nat.eq_dec attempt maxRetries) as [->|Hne].
    + rewrite (retry_loop_gives_up _ _ _ _ _ _ _ Hcall) in Hres.
      injection Hres as <-.
      destruct (fst (http req (net w))) as [err|d] eqn:Hhttp; [|discriminate].
      injection Hr as ->. eauto.
    + rewrite (retry_loop_tries_again _ _ _ _ _ _ _ _ Hcall Hne) in Hres.
      eapply IH; exact Hres.
  - rewrite (retry_loop_returns _ _ _ _ _ _ _ _ Hcall) in Hres. discriminate.
Qed.

(** X6. As long as the error bodies of the server carry their [message]
    and [detail], where present, as strings or [null], every [Error] a
    service call throws has a non-empty message: the server's [message],
    else its [detail], else the status line, the fixed network text, or
    the fixed fallback. (A body that is [null] makes the interceptor
    throw a [TypeError] instead, and a [detail] such as [[]], which is
    truthy, gives the empty message.) *)
Theorem service_errors_have_a_message
    (maxRetries : option nat) (delay : option Z) (w : World Net) (msg : string) :
  (forall (n : Net) (status : Z) (data : Body),
      fst (http req n) = inl (ErrResponse status data) -> text_fields data = true) ->
  fst (retryRequest (api_call http req) maxRetries delay w) = inl (Error msg) ->
  msg <> "".
Proof.
  unfold retryRequest. intros Htext Hres.
  apply retry_loop_thrown in Hres as (n & err & Hhttp & Herr).
  apply (response_rejected_nonempty err); [|now symmetry].
  destruct err as [status data| |message]; [|exact I|exact I].
  exact (Htext n status data Hhttp).
Qed.

(** X7. The chart request carries [from_date] and [to_date] exactly when
    the caller passed a non-empty value for them, after [symbol] and
    [interval], which are always present; an omitted interval is
    [ONE_MINUTE]. *)
Theorem chart_data_request_params (symbol interval fromDate toDate : option string) :
  let r := chart_data_request symbol interval fromDate toDate in
  field "symbol" (params r) = Some (PStr (toUpperCase (default "NIFTY" symbol))) /\
  field "interval" (params r) = Some (PStr (default "ONE_MINUTE" interval)) /\
  field "from_date" (params r) = PStr <$> truthy fromDate /\
  field "to_date" (params r) = PStr <$> truthy toDate /\
  length (params r)
  = (2 + match truthy fromDate with Some _ => 1 | None => 0 end
       + match truthy toDate with Some _ => 1 | None => 0 end)%nat.
Proof.
  unfold chart_data_request.
  destruct (truthy fromDate), (truthy toDate); repeat split; reflexivity.
Qed.

End InterceptorFacts.

(** Concrete runs, on the engine of the examples. *)
Section ServiceRuns.

Local Existing Instance Js.ascii_engine.

Lemma retryRequest_total_sleep_bounded_witness :
  ApiService.total_sleep
    (ApiService.trace
       (snd (ApiService.retryRequest
               (ApiService.api_call ApiService.unreachable
                  (ApiService.recommendations_request None None))
               None None ApiService.fresh_world)))
  <= ApiService.total_sleep (ApiService.trace ApiService.fresh_world)
     + 1000 * (2 ^ Z.of_nat (3 - 1) - 1).
Proof.
  apply (retryRequest_total_sleep_bounded ApiService.unreachable
           (ApiService.recommendations_request None None) None None
           ApiService.fresh_world).
  simpl. lia.
Defined.

Lemma retryRequest_returns_first_success_witness :
  let r := ApiService.retryRequest
             (ApiService.api_call ApiService.rate_limited_twice
                (ApiService.quick_recommendations_request (Some "banknifty")))
             None None ApiService.fresh_world in
  fst r = inr (Some "recommendations") /\
  ApiService.requests_of (ApiService.trace (snd r))
  = repeat (ApiService.quick_recommendations_request (Some "banknifty")) 3 /\
  ApiService.sleeps_of (ApiService.trace (snd r)) = [1000; 2000].
Proof.
  apply (retryRequest_returns_first_success ApiService.rate_limited_twice
           (ApiService.quick_recommendations_request (Some "banknifty"))
           None None ApiService.fresh_world 2 "recommendations").
  - simpl. lia.
  - intros j Hj. destruct j as [|[|j]]; [eexists; reflexivity|eexists; reflexivity|lia].
  - reflexivity.
Defined.

Lemma retryRequest_throws_last_error_witness :
  fst (ApiService.retryRequest
         (ApiService.api_call ApiService.varying_errors
            (ApiService.recommendations_request None None))
         None None ApiService.fresh_world)
  = inl (ApiService.Error "Server error: 502").
Proof.
  apply (retryRequest_throws_last_error ApiService.varying_errors
           (ApiService.recommendations_request None None) None None
           ApiService.fresh_world
           (fun j => ApiService.ErrResponse (500 + Z.of_nat j) (ApiService.BObj []))).
  - simpl. lia.
  - intros j Hj. simpl in Hj. destruct j as [|[|[|j]]]; try reflexivity. lia.
Defined.

Lemma service_errors_have_a_message_witness :
  "Internal Server Error" <> "".
Proof.
  apply (service_errors_have_a_message ApiService.internal_error
           (ApiService.recommendations_request (Some "BANKNIFTY") None)
           None None ApiService.fresh_world "Internal Server Error").
  - intros n status data [= <- <-]. reflexivity.
  - reflexivity.
Defined.

(** Outside that proviso: a validation answer whose [detail] is an empty
    list gives an [Error] with an empty message, and an answer without a
    body gives a [TypeError]. A [detail] string is the message; a body
    that is the empty string gives the status line. *)
Example empty_detail_list_gives_empty_message :
  ApiService.response_rejected
    (ApiService.ErrResponse 422 (ApiService.BObj [("detail", ApiService.BArr [])]))
  = ApiService.Error "" /\
  ApiService.response_rejected (ApiService.ErrResponse 502 ApiService.BNull)
  = ApiService.TypeError "message" /\
  ApiService.response_rejected
    (ApiService.ErrResponse 404 (ApiService.BObj [("detail", ApiService.BStr "Not Found")]))
  = ApiService.Error "Not Found" /\
  ApiService.response_rejected (ApiService.ErrResponse 503 (ApiService.BStr ""))
  = ApiService.Error "Server error: 503".
Proof. repeat split; reflexivity. Qed.

End ServiceRuns.

(** *** [Array.prototype.sort] with a consistent comparator *)

Section SortFacts.

Import RecommendationsTable.

Context {A : Type} (compareFn : A -> A -> Q).

Local Abbreviation may_precede := (may_precede compareFn).

Lemma insert_sorted_perm (x : A) (l : list A) :
  Permutation (x :: l) (insert_sorted compareFn x l).
Proof.
  induction l as [|y l IH]; simpl; [reflexivity|].
  destruct (Qle_bool (compareFn x y) 0); [reflexivity|].
  rewrite perm_swap. now apply perm_skip.
Qed.

Lemma array_sort_perm (l : list A) : Permutation l (array_sort compareFn l).
Proof.
  induction l as [|x l IH]; simpl; [reflexivity|].
  rewrite <- insert_sorted_perm. now apply perm_skip.
Qed.

Lemma array_sort_In (l : list A) (x : A) : In x (array_sort compareFn l) <-> In x l.
Proof.
  split; apply Permutation_in;
    [symmetry|]; apply array_sort_perm.
Qed.

Section Consistent.

Hypothesis total : forall x y, may_precede x y \/ may_precede y x.
Hypothesis trans : forall x y z, may_precede x y -> may_precede y z -> may_precede x z.

Lemma insert_sorted_sorted (x : A) (l : list A) :
  StronglySorted may_precede l -> StronglySorted may_precede (insert_sorted compareFn x l).
Proof.
  induction 1 as [|y l Hs IH Hy]; simpl.
  - repeat constructor.
  - destruct (Qle_bool (compareFn x y) 0) eqn:E.
    + apply Qle_bool_iff in E.
      constructor; [now constructor|].
      constructor; [exact E|].
      eapply List.Forall_impl; [|exact Hy]. intros z Hz. now apply trans with y.
    + assert (may_precede y x) as Hyx.
      { destruct (total x y) as [Hxy|Hyx]; [|exact Hyx].
        apply Qle_bool_iff in Hxy. unfold may_precede in *. congruence. }
      constructor; [exact IH|].
      apply List.Forall_forall. intros z Hz.
      apply (Permutation_in _ (Permutation_sym (insert_sorted_perm x l))) in Hz.
      destruct Hz as [<-|Hz]; [exact Hyx|].
      rewrite List.Forall_forall in Hy. now apply Hy.
Qed.

Lemma array_sort_sorted (l : list A) : StronglySorted may_precede (array_sort compareFn l).
Proof.
  induction l as [|x l IH]; simpl; [constructor|]. now apply insert_sorted_sorted.
Qed.

End Consistent.

(** Stability: elements that compare equal keep their relative order.
    [same] singles out one class of mutually tied elements. *)
Lemma insert_sorted_filter (same : A -> bool) (x : A) (l : list A) :
  (forall a b, same a = true -> same b = true -> may_precede a b) ->
  List.filter same (insert_sorted compareFn x l) = List.filter same (x :: l).
Proof.
  intros Htie. induction l as [|y l IH]; [reflexivity|].
  cbn [insert_sorted].
  destruct (Qle_bool (compareFn x y) 0) eqn:E; [reflexivity|].
  cbn [List.filter] in *. rewrite IH.
  destruct (same x) eqn:Ex, (same y) eqn:Ey; try reflexivity.
  exfalso. specialize (Htie x y Ex Ey). apply Qle_bool_iff in Htie. congruence.
Qed.

Lemma array_sort_stable (same : A -> bool) (l : list A) :
  (forall a b, same a = true -> same b = true -> may_precede a b) ->
  List.filter same (array_sort compareFn l) = List.filter same l.
Proof.
  intros Htie. induction l as [|x l IH]; [reflexivity|].
  cbn [array_sort]. rewrite insert_sorted_filter by exact Htie.
  cbn [List.filter]. now rewrite IH.
Qed.

(** A list that is already in order comes back as it is. *)
Lemma array_sort_sorted_id (l : list A) :
  StronglySorted may_precede l -> array_sort compareFn l = l.
Proof.
  induction 1 as [|x l Hs IH Hx]; [reflexivity|].
  cbn [array_sort]. rewrite IH.
  destruct l as [|y l']; [reflexivity|].
  cbn [insert_sorted]. inversion Hx as [|? ? Hxy _]; subst.
  apply Qle_bool_iff in Hxy. now rewrite Hxy.
Qed.

End SortFacts.

(** Only the comparisons between elements of the list matter. *)
Lemma insert_sorted_ext {A : Type} (f g : A -> A -> Q) (x : A) (l : list A) :
  (forall y, In y l -> f x y = g x y) ->
  RecommendationsTable.insert_sorted f x l = RecommendationsTable.insert_sorted g x l.
Proof.
  induction l as [|y l IH]; intros H; [reflexivity|].
  simpl. rewrite (H y) by now left.
  destruct (Qle_bool (g x y) 0); [reflexivity|].
  f_equal. apply IH. intros z Hz. apply H. now right.
Qed.

Lemma array_sort_ext {A : Type} (f g : A -> A -> Q) (l : list A) :
  (forall x y, In x l -> In y l -> f x y = g x y) ->
  RecommendationsTable.array_sort f l = RecommendationsTable.array_sort g l.
Proof.
  induction l as [|x l IH]; intros H; [reflexivity|].
  simpl. rewrite IH by (intros; apply H; now right).
  apply insert_sorted_ext. intros y Hy.
  apply array_sort_In in Hy. apply H; [now left|now right].
Qed.

(** *** The display order of the recommendations table *)

Section TableFacts.

Import RecommendationsTable.

Context (localeCompare : string -> string -> Z) (numberToString : Q -> string).

Local Abbreviation compareFn := (compareFn localeCompare numberToString).
Local Abbreviation sortedRecommendations :=
  (sortedRecommendations localeCompare numberToString).

Lemma compareFn_numeric (st : SortState) (h : Heap) (a b : loc) :
  is_Some (number_of h (sortField st) a) ->
  is_Some (number_of h (sortField st) b) ->
  compareFn st h a b = by_column st h a b.
Proof.
  unfold by_column, num, number_of, RecommendationsTable.compareFn.
  intros [x Hx] [y Hy].
  destruct (get h a (sortField st)); try discriminate.
  destruct (get h b (sortField st)); try discriminate.
  reflexivity.
Qed.

Lemma by_column_total (st : SortState) (h : Heap) (a b : loc) :
  may_precede (by_column st h) a b \/ may_precede (by_column st h) b a.
Proof.
  unfold may_precede, by_column, multiplier.
  destruct (sortDirection st); lra.
Qed.

Lemma by_column_trans (st : SortState) (h : Heap) (a b c : loc) :
  may_precede (by_column st h) a b -> may_precede (by_column st h) b c ->
  may_precede (by_column st h) a c.
Proof.
  unfold may_precede, by_column, multiplier.
  destruct (sortDirection st); lra.
Qed.

Lemma by_column_desc (h : Heap) (a b : loc) :
  may_precede (by_column initial_state h) a b <->
  (num h "risk_reward_ratio" b <= num h "risk_reward_ratio" a)%Q.
Proof. unfold may_precede, by_column, multiplier. simpl. split; lra. Qed.

Lemma StronglySorted_weaken {A} (R S : A -> A -> Prop) (l : list A) :
  (forall x y, R x y -> S x y) -> StronglySorted R l -> StronglySorted S l.
Proof.
  intros HRS. induction 1 as [|x l Hs IH Hx]; constructor; [exact IH|].
  eapply List.Forall_impl; [|exact Hx]. auto.
Qed.

(** What [sortedRecommendations] leaves in the heap. *)
Lemma sortedRecommendations_result (st : SortState) (h : Heap) (recs : loc)
    (elems : list loc) :
  arrays h !! recs = Some elems ->
  let copy := fresh (dom (arrays h)) in
  sortedRecommendations st h recs
  = Some (copy,
          {| objects := objects h;
             arrays := <[copy := array_sort (compareFn st h) elems]> (arrays h) |}).
Proof.
  intros Hrecs. unfold RecommendationsTable.sortedRecommendations, spread, sort_in_place.
  rewrite Hrecs. cbn [objects arrays]. rewrite lookup_insert_eq.
  rewrite insert_insert_eq. reflexivity.
Qed.

Lemma copy_is_fresh (h : Heap) : arrays h !! fresh (dom (arrays h)) = None.
Proof. apply not_elem_of_dom. apply is_fresh. Qed.

(** On a numeric column the result is the stable sort by that column in
    the selected direction. *)
Lemma array_sort_numeric (st : SortState) (h : Heap) (elems : list loc) :
  Forall (fun a => is_Some (number_of h (sortField st) a)) elems ->
  array_sort (compareFn st h) elems = array_sort (by_column st h) elems.
Proof.
  intros Hnum. apply array_sort_ext. intros x y Hx Hy.
  rewrite List.Forall_forall in Hnum.
  apply compareFn_numeric; now apply Hnum.
Qed.

(** With the table's initial sort state and numeric ratios, the
    displayed list is a rearrangement of the received one in descending
    order of risk-reward ratio, and the sort is stable: recommendations
    with equal ratio keep the order in which they were received. A
    received list that is already in descending ratio order, whatever
    its order among equal ratios, is displayed unchanged. *)
Lemma sortedRecommendations_ratio_descending_stable
    (h : Heap) (recs : loc) (elems : list loc) :
  arrays h !! recs = Some elems ->
  Forall (fun a => is_Some (number_of h "risk_reward_ratio" a)) elems ->
  let ratio := num h "risk_reward_ratio" in
  exists (sorted : loc) (h' : Heap) (out : list loc),
    sortedRecommendations initial_state h recs = Some (sorted, h') /\
    arrays h' !! sorted = Some out /\
    Permutation elems out /\
    StronglySorted (fun a b => (ratio b <= ratio a)%Q) out /\
    (forall q : Q,
        List.filter (fun a => Qeq_bool (ratio a) q) out
        = List.filter (fun a => Qeq_bool (ratio a) q) elems) /\
    (StronglySorted (fun a b => (ratio b <= ratio a)%Q) elems -> out = elems).
Proof.
  intros Hrecs Hnum ratio.
  eexists _, _, (array_sort (by_column initial_state h) elems).
  split; [apply (sortedRecommendations_result _ _ _ _ Hrecs)|].
  cbn [arrays]. rewrite lookup_insert_eq, (array_sort_numeric initial_state h elems Hnum).
  split; [reflexivity|].
  split; [apply array_sort_perm|].
  split; [|split].
  - eapply StronglySorted_weaken; [|apply array_sort_sorted].
    + intros x y Hxy. now apply by_column_desc.
    + apply by_column_total.
    + apply by_column_trans.
  - intros q. apply array_sort_stable. intros a b Ha Hb.
    apply Qeq_bool_iff in Ha, Hb. apply by_column_desc. fold ratio. lra.
  - intros Hsorted. apply array_sort_sorted_id.
    eapply StronglySorted_weaken; [|exact Hsorted].
    intros x y Hxy. now apply by_column_desc.
Qed.

(** C9. Sorting for display works on a copy: the array the component
    received still holds the same references in the same order, every
    recommendation object is as it was, no other array changed, and the
    sorted list lives in an array that did not exist before. This holds
    for every sort column and direction. *)
Theorem sortedRecommendations_leaves_input_unchanged
    (st : SortState) (h : Heap) (recs : loc) (elems : list loc) :
  arrays h !! recs = Some elems ->
  exists (sorted : loc) (h' : Heap),
    sortedRecommendations st h recs = Some (sorted, h') /\
    arrays h !! sorted = None /\
    arrays h' !! sorted = Some (array_sort (compareFn st h) elems) /\
    arrays h' !! recs = Some elems /\
    (forall l, l <> sorted -> arrays h' !! l = arrays h !! l) /\
    objects h' = objects h.
Proof.
  intros Hrecs. eexists _, _.
  split; [apply (sortedRecommendations_result _ _ _ _ Hrecs)|].
  cbn [arrays objects].
  split; [apply copy_is_fresh|].
  split; [apply lookup_insert_eq|].
  assert (fresh (dom (arrays h)) <> recs) as Hne.
  { intros E. pose proof (copy_is_fresh h) as Hf. rewrite E in Hf. congruence. }
  split; [now rewrite lookup_insert_ne|].
  split; [|reflexivity].
  intros l Hl. now rewrite lookup_insert_ne.
Qed.

End TableFacts.

(** The sort really reorders: ratios 1, 3, 2 come out as 3, 2, 1, in a new
    array, while the received array still reads 1, 3, 2. *)
Example sortedRecommendations_reorders :
  exists h',
    RecommendationsTable.sortedRecommendations
      RecommendationsTable.codeunit_compare RecommendationsTable.plain_number
      RecommendationsTable.initial_state RecommendationsTable.unsorted_heap 10%positive
    = Some (11%positive, h') /\
    RecommendationsTable.arrays h' !! 11%positive = Some [2; 3; 1]%positive /\
    RecommendationsTable.arrays h' !! 10%positive = Some [1; 2; 3]%positive.
Proof. eexists. split; [vm_compute; reflexivity|]. split; vm_compute; reflexivity. Qed.

(** Without the copy the caller's array would change: [sort] mutates the
    array it is called on. *)
Example sort_in_place_mutates :
  exists h',
    RecommendationsTable.sort_in_place
      RecommendationsTable.codeunit_compare RecommendationsTable.plain_number
      RecommendationsTable.initial_state RecommendationsTable.unsorted_heap 10%positive
    = Some (10%positive, h') /\
    RecommendationsTable.arrays h' !! 10%positive = Some [2; 3; 1]%positive.
Proof. eexists. split; [vm_compute; reflexivity|]. vm_compute; reflexivity. Qed.

(** The table's own sort looks at the selected column only. Handed a
    list that is not in the ranking of the analysis (two recommendations
    with ratio 2, the one with volume 200 second), it displays the list
    as received. *)
Example table_sort_compares_one_column :
  exists (h' : RecommendationsTable.Heap),
    RecommendationsTable.sortedRecommendations
      RecommendationsTable.codeunit_compare RecommendationsTable.plain_number
      RecommendationsTable.initial_state RecommendationsTable.tie_heap 10%positive
    = Some (11%positive, h') /\
    RecommendationsTable.arrays h' !! 11%positive = Some [1; 2]%positive /\
    ~ RecommendationsTable.follows_ranking RecommendationsTable.tie_heap [1; 2]%positive.
Proof.
  eexists. split; [vm_compute; reflexivity|]. split; [vm_compute; reflexivity|].
  intros H.
  assert (1 < 0)%nat as Habs; [|lia].
  apply (H 1%nat 0%nat 2%positive 1%positive); [reflexivity|reflexivity|].
  right. left. split; vm_compute; reflexivity.
Qed.

Lemma sortedRecommendations_leaves_input_unchanged_witness :
  exists (sorted : RecommendationsTable.loc) (h' : RecommendationsTable.Heap),
    RecommendationsTable.sortedRecommendations
      RecommendationsTable.codeunit_compare RecommendationsTable.plain_number
      RecommendationsTable.initial_state RecommendationsTable.unsorted_heap 10%positive
    = Some (sorted, h') /\
    RecommendationsTable.arrays RecommendationsTable.unsorted_heap !! sorted = None /\
    RecommendationsTable.arrays h' !! sorted
    = Some (RecommendationsTable.array_sort
              (RecommendationsTable.compareFn
                 RecommendationsTable.codeunit_compare RecommendationsTable.plain_number
                 RecommendationsTable.initial_state RecommendationsTable.unsorted_heap)
              [1; 2; 3]%positive) /\
    RecommendationsTable.arrays h' !! 10%positive = Some [1; 2; 3]%positive /\
    (forall l, l <> sorted ->
       RecommendationsTable.arrays h' !! l
       = RecommendationsTable.arrays RecommendationsTable.unsorted_heap !! l) /\
    RecommendationsTable.objects h'
    = RecommendationsTable.objects RecommendationsTable.unsorted_heap.
Proof.
  apply (sortedRecommendations_leaves_input_unchanged
           RecommendationsTable.codeunit_compare RecommendationsTable.plain_number
           RecommendationsTable.initial_state RecommendationsTable.unsorted_heap
           10%positive [1; 2; 3]%positive).
  reflexivity.
Defined.

(** *** The table: every numeric column, both directions *)

Section ColumnFacts.

Import RecommendationsTable.

Context (localeCompare : string -> string -> Z) (numberToString : Q -> string).

Local Abbreviation compareFn := (compareFn localeCompare numberToString).
Local Abbreviation sortedRecommendations :=
  (sortedRecommendations localeCompare numberToString).

Lemma by_column_ordered (st : SortState) (h : Heap) (a b : loc) :
  may_precede (by_column st h) a b <->
  match sortDirection st with
  | asc => (num h (sortField st) a <= num h (sortField st) b)%Q
  | desc => (num h (sortField st) b <= num h (sortField st) a)%Q
  end.
Proof.
  unfold may_precede, by_column, multiplier.
  destruct (sortDirection st); split; lra.
Qed.

(** X8. For every column whose values are numbers and for both
    directions, the displayed list is a rearrangement of the received
    one, ordered by that column in the selected direction, in which
    recommendations with equal values keep their received order. *)
Theorem sortedRecommendations_by_numeric_column
    (st : SortState) (h : Heap) (recs : loc) (elems : list loc) :
  arrays h !! recs = Some elems ->
  Forall (fun a => is_Some (number_of h (sortField st) a)) elems ->
  let key := num h (sortField st) in
  let ordered := fun a b =>
    match sortDirection st with
    | asc => (key a <= key b)%Q
    | desc => (key b <= key a)%Q
    end in
  exists (sorted : loc) (h' : Heap) (out : list loc),
    sortedRecommendations st h recs = Some (sorted, h') /\
    arrays h' !! sorted = Some out /\
    Permutation elems out /\
    StronglySorted ordered out /\
    (forall q : Q,
        List.filter (fun a => Qeq_bool (key a) q) out
        = List.filter (fun a => Qeq_bool (key a) q) elems).
Proof.
  intros Hrecs Hnum key ordered.
  eexists _, _, (array_sort (by_column st h) elems).
  split; [apply (sortedRecommendations_result _ _ _ _ _ _ Hrecs)|].
  cbn [arrays]. rewrite lookup_insert_eq, (array_sort_numeric _ _ st h elems Hnum).
  split; [reflexivity|].
  split; [apply array_sort_perm|].
  split.
  - eapply StronglySorted_weaken; [|apply array_sort_sorted].
    + intros x y Hxy. now apply by_column_ordered in Hxy.
    + apply by_column_total.
    + apply by_column_trans.
  - intros q. apply array_sort_stable. intros a b Ha Hb.
    apply Qeq_bool_iff in Ha, Hb. apply by_column_ordered.
    fold key. destruct (sortDirection st); lra.
Qed.

(** Two lists in the same order that hold the same elements are equal
    when the order never ties two different elements. *)
Lemma sorted_perm_unique {A : Type} (R : A -> A -> Prop) (l1 l2 : list A) :
  (forall a b, In a l1 -> In b l1 -> R a b -> R b a -> a = b) ->
  StronglySorted R l1 -> StronglySorted R l2 -> Permutation l1 l2 -> l1 = l2.
Proof.
  revert l2. induction l1 as [|x l1 IH]; intros l2 Hanti H1 H2 Hperm.
  - apply Permutation_nil in Hperm. now subst.
  - destruct l2 as [|y l2].
    { apply Permutation_sym, Permutation_nil in Hperm. discriminate. }
    apply StronglySorted_inv in H1 as [H1 Hx].
    apply StronglySorted_inv in H2 as [H2 Hy].
    rewrite List.Forall_forall in Hx, Hy.
    assert (x = y) as ->.
    { assert (In x (y :: l2)) as Hxin
        by (eapply Permutation_in; [exact Hperm|now left]).
      assert (In y (x :: l1)) as Hyin
        by (eapply Permutation_in; [symmetry; exact Hperm|now left]).
      destruct Hxin as [->|Hxin]; [reflexivity|].
      destruct Hyin as [->|Hyin]; [reflexivity|].
      apply Hanti; [now left|now right|now apply Hx|now apply Hy]. }
    f_equal. apply IH; auto.
    + intros a b Ha Hb. apply Hanti; now right.
    + eapply Permutation_cons_inv; exact Hperm.
Qed.

Lemma StronglySorted_app {A : Type} (R : A -> A -> Prop) (l1 l2 : list A) :
  StronglySorted R l1 -> StronglySorted R l2 ->
  (forall a b, In a l1 -> In b l2 -> R a b) ->
  StronglySorted R (l1 ++ l2).
Proof.
  intros H1 H2 Hcross. induction H1 as [|x l1 H1 IH Hx]; [exact H2|].
  simpl. constructor.
  - apply IH. intros a b Ha Hb. apply Hcross; [now right|exact Hb].
  - apply List.Forall_forall. intros z Hz. apply in_app_or in Hz as [Hz|Hz].
    + rewrite List.Forall_forall in Hx. now apply Hx.
    + apply Hcross; [now left|exact Hz].
Qed.

Lemma StronglySorted_rev {A : Type} (R : A -> A -> Prop) (l : list A) :
  StronglySorted R l -> StronglySorted (fun a b => R b a) (rev l).
Proof.
  induction 1 as [|x l Hs IH Hx]; [constructor|].
  simpl. apply StronglySorted_app; [exact IH|repeat constructor|].
  intros a b Ha Hb. destruct Hb as [<-|[]].
  apply in_rev in Ha. rewrite List.Forall_forall in Hx. now apply Hx.
Qed.

Lemma same_column_flips (st : SortState) :
  sortField (handleSort (sortField st) st) = sortField st /\
  sortDirection (handleSort (sortField st) st)
  = match sortDirection st with asc => desc | desc => asc end.
Proof. unfold handleSort. now rewrite String.eqb_refl. Qed.

(** X9. Clicking the header of the active column again shows the same
    recommendations in exactly the reverse order, provided the column is
    numeric and no two recommendations share a value in it. *)
Theorem second_click_reverses_order
    (st : SortState) (h : Heap) (elems : list loc) :
  Forall (fun a => is_Some (number_of h (sortField st) a)) elems ->
  (forall a b, In a elems -> In b elems ->
     (num h (sortField st) a == num h (sortField st) b)%Q -> a = b) ->
  array_sort (compareFn (handleSort (sortField st) st) h) elems
  = rev (array_sort (compareFn st h) elems).
Proof.
  intros Hnum Hinj.
  destruct (same_column_flips st) as [Hf Hd].
  set (st' := handleSort (sortField st) st) in *.
  assert (Forall (fun a => is_Some (number_of h (sortField st') a)) elems)
    as Hnum' by now rewrite Hf.
  rewrite (array_sort_numeric _ _ _ h elems Hnum).
  rewrite (array_sort_numeric _ _ _ h elems Hnum').
  apply (sorted_perm_unique (may_precede (by_column st' h))).
  - intros a b Ha Hb Hab Hba.
    apply array_sort_In in Ha, Hb.
    apply by_column_ordered in Hab, Hba. rewrite Hf, Hd in Hab, Hba.
    apply Hinj; auto. destruct (sortDirection st); lra.
  - apply array_sort_sorted; [apply by_column_total|apply by_column_trans].
  - eapply StronglySorted_weaken;
      [|apply StronglySorted_rev, (array_sort_sorted (by_column st h));
        [apply by_column_total|apply by_column_trans]].
    intros a b Hba. cbv beta in Hba.
    apply by_column_ordered. apply by_column_ordered in Hba.
    rewrite Hf, Hd. destruct (sortDirection st); exact Hba.
  - rewrite <- array_sort_perm. rewrite <- Permutation_rev. apply array_sort_perm.
Qed.

(** X10. Two clicks on the same header: on the active column they restore
    the sort state; on another column they select it in ascending
    order. *)
Theorem handleSort_twice (field : string) (st : SortState) :
  handleSort field (handleSort field st)
  = if String.eqb (sortField st) field then st
    else {| sortField := field; sortDirection := asc |}.
Proof.
  unfold handleSort.
  destruct (String.eqb (sortField st) field) eqn:E; simpl.
  - rewrite E. destruct st as [f []]; reflexivity.
  - now rewrite String.eqb_refl.
Qed.

(** X11. Sorting what is displayed once more, in the same sort state,
    changes nothing: the second sort yields another new array with the
    same order, and the received array is still as it was. *)
Theorem sortedRecommendations_idempotent
    (st : SortState) (h : Heap) (recs : loc) (elems : list loc) :
  arrays h !! recs = Some elems ->
  Forall (fun a => is_Some (number_of h (sortField st) a)) elems ->
  exists (s1 s2 : loc) (h1 h2 : Heap) (out : list loc),
    sortedRecommendations st h recs = Some (s1, h1) /\
    sortedRecommendations st h1 s1 = Some (s2, h2) /\
    s1 <> s2 /\
    arrays h2 !! s1 = Some out /\
    arrays h2 !! s2 = Some out /\
    arrays h2 !! recs = Some elems.
Proof.
  intros Hrecs Hnum.
  pose proof (sortedRecommendations_result localeCompare numberToString st h recs elems Hrecs)
    as H1. cbv zeta in H1.
  set (s1 := fresh (dom (arrays h))) in *.
  set (out := array_sort (compareFn st h) elems) in *.
  set (h1 := {| objects := objects h; arrays := <[s1 := out]> (arrays h) |}) in *.
  assert (arrays h1 !! s1 = Some out) as Hs1 by apply lookup_insert_eq.
  pose proof (sortedRecommendations_result localeCompare numberToString st h1 s1 out Hs1)
    as H2. cbv zeta in H2.
  set (s2 := fresh (dom (arrays h1))) in *.
  assert (s2 <> s1) as Hne.
  { intros E. pose proof (copy_is_fresh h1) as Hf. fold s2 in Hf.
    rewrite E in Hf. congruence. }
  assert (s1 <> recs) as Hne1.
  { intros E. pose proof (copy_is_fresh h) as Hf. fold s1 in Hf.
    rewrite E in Hf. congruence. }
  assert (s2 <> recs) as Hne2.
  { intros E. pose proof (copy_is_fresh h1) as Hf. fold s2 in Hf.
    rewrite E in Hf. unfold h1 in Hf. cbn [arrays] in Hf.
    rewrite lookup_insert_ne in Hf by exact Hne1. congruence. }
  assert (array_sort (compareFn st h1) out = out) as Hid.
  { assert (Forall (fun a => is_Some (number_of h1 (sortField st) a)) out) as Hnum1.
    { apply List.Forall_forall. intros a Ha. apply array_sort_In in Ha.
      rewrite List.Forall_forall in Hnum. now apply Hnum. }
    rewrite (array_sort_numeric _ _ st h1 out Hnum1).
    apply array_sort_sorted_id. unfold out.
    rewrite (array_sort_numeric _ _ st h elems Hnum).
    apply (array_sort_sorted (by_column st h));
      [apply by_column_total|apply by_column_trans]. }
  eexists s1, s2, h1, _, out.
  split; [exact H1|]. split; [exact H2|]. split; [congruence|].
  cbn [arrays]. rewrite Hid.
  split; [rewrite lookup_insert_ne by exact Hne; exact Hs1|].
  split; [apply lookup_insert_eq|].
  rewrite lookup_insert_ne by exact Hne2.
  unfold h1. cbn [arrays]. now rewrite lookup_insert_ne by exact Hne1.
Qed.

End ColumnFacts.

Lemma sortedRecommendations_by_numeric_column_witness :
  let h := RecommendationsTable.unsorted_heap in
  let st := RecommendationsTable.ratio_ascending in
  let key := RecommendationsTable.num h (RecommendationsTable.sortField st) in
  let ordered := fun a b =>
    match RecommendationsTable.sortDirection st with
    | RecommendationsTable.asc => (key a <= key b)%Q
    | RecommendationsTable.desc => (key b <= key a)%Q
    end in
  exists (sorted : RecommendationsTable.loc) (h' : RecommendationsTable.Heap)
         (out : list RecommendationsTable.loc),
    RecommendationsTable.sortedRecommendations
      RecommendationsTable.codeunit_compare RecommendationsTable.plain_number
      st h 10%positive = Some (sorted, h') /\
    RecommendationsTable.arrays h' !! sorted = Some out /\
    Permutation [1; 2; 3]%positive out /\
    StronglySorted ordered out /\
    (forall q : Q,
        List.filter (fun a => Qeq_bool (key a) q) out
        = List.filter (fun a => Qeq_bool (key a) q) [1; 2; 3]%positive).
Proof.
  apply (sortedRecommendations_by_numeric_column
           RecommendationsTable.codeunit_compare RecommendationsTable.plain_number
           RecommendationsTable.ratio_ascending RecommendationsTable.unsorted_heap
           10%positive [1; 2; 3]%positive).
  - reflexivity.
  - repeat constructor; eexists; reflexivity.
Defined.

Example ascending_order :
  RecommendationsTable.array_sort
    (RecommendationsTable.compareFn
       RecommendationsTable.codeunit_compare RecommendationsTable.plain_number
       RecommendationsTable.ratio_ascending RecommendationsTable.unsorted_heap)
    [1; 2; 3]%positive
  = [1; 3; 2]%positive.
Proof. vm_compute. reflexivity. Qed.

Lemma second_click_reverses_order_witness :
  RecommendationsTable.array_sort
    (RecommendationsTable.compareFn
       RecommendationsTable.codeunit_compare RecommendationsTable.plain_number
       (RecommendationsTable.handleSort "risk_reward_ratio"
          RecommendationsTable.initial_state)
       RecommendationsTable.unsorted_heap)
    [1; 2; 3]%positive
  = rev (RecommendationsTable.array_sort
           (RecommendationsTable.compareFn
              RecommendationsTable.codeunit_compare RecommendationsTable.plain_number
              RecommendationsTable.initial_state RecommendationsTable.unsorted_heap)
           [1; 2; 3]%positive).
Proof.
  apply (second_click_reverses_order
           RecommendationsTable.codeunit_compare RecommendationsTable.plain_number
           RecommendationsTable.initial_state RecommendationsTable.unsorted_heap
           [1; 2; 3]%positive).
  - repeat constructor; eexists; reflexivity.
  - intros a b [<-|[<-|[<-|[]]]] [<-|[<-|[<-|[]]]] H;
      try reflexivity; vm_compute in H; discriminate.
Defined.

Lemma sortedRecommendations_idempotent_witness :
  exists (s1 s2 : RecommendationsTable.loc) (h1 h2 : RecommendationsTable.Heap)
         (out : list RecommendationsTable.loc),
    RecommendationsTable.sortedRecommendations
      RecommendationsTable.codeunit_compare RecommendationsTable.plain_number
      RecommendationsTable.initial_state RecommendationsTable.unsorted_heap 10%positive
    = Some (s1, h1) /\
    RecommendationsTable.sortedRecommendations
      RecommendationsTable.codeunit_compare RecommendationsTable.plain_number
      RecommendationsTable.initial_state h1 s1
    = Some (s2, h2) /\
    s1 <> s2 /\
    RecommendationsTable.arrays h2 !! s1 = Some out /\
    RecommendationsTable.arrays h2 !! s2 = Some out /\
    RecommendationsTable.arrays h2 !! 10%positive = Some [1; 2; 3]%positive.
Proof.
  apply (sortedRecommendations_idempotent
           RecommendationsTable.codeunit_compare RecommendationsTable.plain_number
           RecommendationsTable.initial_state RecommendationsTable.unsorted_heap
           10%positive [1; 2; 3]%positive).
  - reflexivity.
  - repeat constructor; eexists; reflexivity.
Defined.

(** *** The recommendation cards: updates and timeouts *)

Section CardsFacts.

Import SpreadCards.

Context {Rec : Type}.

Local Abbreviation CardsState := (CardsState Rec).
Local Abbreviation Event := (Event Rec).

Lemma settle_fires_all (st : CardsState) (recs : list Rec) (pending : list (list Rec)) :
  timeouts st = pending ++ [recs] ->
  settle st = {| animatedRecommendations := recs; isAnimating := false; timeouts := [] |}.
Proof.
  unfold settle. revert st. induction pending as [|p pending IH]; intros st Ht.
  - rewrite Ht. simpl. unfold timeout_fires. now rewrite Ht.
  - rewrite Ht. cbn [length app]. rewrite Nat.iter_succ_r.
    specialize (IH (timeout_fires st)).
    assert (timeouts (timeout_fires st) = pending ++ [recs]) as Ht'.
    { unfold timeout_fires. now rewrite Ht. }
    rewrite Ht' in IH. now apply IH.
Qed.

Lemma run_snoc (events : list Event) (ev : Event) (st : CardsState) :
  run (events ++ [ev]) st = step (run events st) ev.
Proof. unfold run. now rewrite fold_left_app. Qed.

(** X12. After a non-empty list has arrived and the pending timeouts have
    fired, the cards show exactly that list and are visible again,
    whatever happened before. *)
Theorem cards_show_last_nonempty_update
    (events : list Event) (st : CardsState) (r : Rec) (rs : list Rec) :
  settle (run (events ++ [Update (Some (r :: rs))]) st)
  = {| animatedRecommendations := r :: rs; isAnimating := false; timeouts := [] |}.
Proof.
  rewrite run_snoc. apply (settle_fires_all _ _ (timeouts (run events st))).
  reflexivity.
Qed.

(** X13. A pending timeout is not cancelled by a later empty update. When
    a non-empty list is followed by an empty (or missing) one before the
    timeout has fired, the panel for "no recommendations" is shown at
    first, and once the timeout fires the cards show the earlier list
    again. *)
Theorem empty_update_is_overwritten_by_pending_timeout
    (events : list Event) (st : CardsState) (r : Rec) (rs : list Rec)
    (empty : option (list Rec)) :
  empty = None \/ empty = Some [] ->
  let st1 := run (events ++ [Update (Some (r :: rs)); Update empty]) st in
  view false st1 = NoRecommendations /\
  view false (settle st1) = CardsOf (r :: rs).
Proof.
  intros Hempty st1. subst st1.
  replace (events ++ [Update (Some (r :: rs)); Update empty])
    with ((events ++ [Update (Some (r :: rs))]) ++ [Update empty])
    by now rewrite <- app_assoc.
  rewrite run_snoc, run_snoc.
  split.
  - destruct Hempty as [-> | ->]; reflexivity.
  - rewrite (settle_fires_all _ (r :: rs) (timeouts (run events st))).
    + reflexivity.
    + destruct Hempty as [-> | ->]; reflexivity.
Qed.

(** X14. The cards are never left invisible: in every state the
    component can reach, [isAnimating] is set only while a timeout that
    will clear it is pending, and every pending timeout holds a
    non-empty list. *)
Theorem cards_invisible_only_while_timeout_pending (events : list Event) :
  let st := run events mounted in
  (isAnimating st = true -> timeouts st <> []) /\
  Forall (fun recs => recs <> []) (timeouts st).
Proof.
  induction events as [|ev events IH] using rev_ind.
  - split; [discriminate|constructor].
  - cbv zeta in *. rewrite run_snoc.
    destruct IH as [IH1 IH2]. set (st := run events mounted) in *.
    destruct ev as [[[|r rs]|]|]; simpl.
    + split; [exact IH1|exact IH2].
    + split.
      * intros _ E. apply app_eq_nil in E as [_ E]. discriminate.
      * apply Forall_app. split; [exact IH2|]. repeat constructor. discriminate.
    + split; [exact IH1|exact IH2].
    + unfold timeout_fires. destruct (timeouts st) as [|t ts] eqn:Et.
      * rewrite Et. split; [exact IH1|constructor].
      * simpl. split; [discriminate|]. now apply Forall_inv_tail in IH2.
Qed.

End CardsFacts.

Lemma empty_update_is_overwritten_by_pending_timeout_witness :
  let st1 := SpreadCards.run
               [SpreadCards.Update (Some ["Bull Call Spread"]);
                SpreadCards.Update (Some [])]
               SpreadCards.mounted in
  SpreadCards.view false st1 = SpreadCards.NoRecommendations /\
  SpreadCards.view false (SpreadCards.settle st1)
  = SpreadCards.CardsOf ["Bull Call Spread"].
Proof.
  apply (empty_update_is_overwritten_by_pending_timeout
           [] SpreadCards.mounted "Bull Call Spread" [] (Some [])).
  right. reflexivity.
Defined.

(** *** The price chart: statistics *)

Section ChartFacts.

Import MarketCharts.

Context {Timestamp Date : Type} (newDate : Timestamp -> Date).

Local Abbreviation Candle := (Candle Timestamp).
Local Abbreviation ChartData := (ChartData Timestamp).

Lemma Math_max_acc (xs : list Q) (m : Q) :
  exists m',
    fold_left (fun acc x =>
                 match acc with
                 | None => Some x
                 | Some m => Some (if Qle_bool m x then x else m)
                 end) xs (Some m) = Some m' /\
    (m' = m \/ In m' xs) /\ (m <= m')%Q /\ Forall (fun x => (x <= m')%Q) xs.
Proof.
  revert m. induction xs as [|x xs IH]; intros m; simpl.
  - exists m. repeat split; auto; try lra; constructor.
  - destruct (Qle_bool m x) eqn:E.
    + apply Qle_bool_iff in E.
      destruct (IH x) as (m' & Hf & Hin & Hle & Hall).
      exists m'. repeat split; auto.
      * right. destruct Hin as [->|Hin]; auto.
      * lra.
    + assert (x <= m)%Q as Hx.
      { destruct (Qlt_le_dec m x) as [Hlt|Hle]; [|exact Hle].
        assert (Qle_bool m x = true) by (apply Qle_bool_iff; lra). congruence. }
      destruct (IH m) as (m' & Hf & Hin & Hle & Hall).
      exists m'. repeat split; auto.
      * destruct Hin as [->|Hin]; auto.
      * constructor; [lra|exact Hall].
Qed.

Lemma Math_min_acc (xs : list Q) (m : Q) :
  exists m',
    fold_left (fun acc x =>
                 match acc with
                 | None => Some x
                 | Some m => Some (if Qle_bool x m then x else m)
                 end) xs (Some m) = Some m' /\
    (m' = m \/ In m' xs) /\ (m' <= m)%Q /\ Forall (fun x => (m' <= x)%Q) xs.
Proof.
  revert m. induction xs as [|x xs IH]; intros m; simpl.
  - exists m. repeat split; auto; try lra; constructor.
  - destruct (Qle_bool x m) eqn:E.
    + apply Qle_bool_iff in E.
      destruct (IH x) as (m' & Hf & Hin & Hle & Hall).
      exists m'. repeat split; auto.
      * right. destruct Hin as [->|Hin]; auto.
      * lra.
    + assert (m <= x)%Q as Hx.
      { destruct (Qlt_le_dec x m) as [Hlt|Hle]; [|exact Hle].
        assert (Qle_bool x m = true) by (apply Qle_bool_iff; lra). congruence. }
      destruct (IH m) as (m' & Hf & Hin & Hle & Hall).
      exists m'. repeat split; auto.
      * destruct Hin as [->|Hin]; auto.
      * constructor; [lra|exact Hall].
Qed.

(** X20. For a non-empty list of candles the statistics row shows, as the
    high, the high of one of the candles that no candle exceeds, and as
    the low, the low of one of the candles that no candle undercuts. When
    no candle has its low above its high, the low shown is not above the
    high shown. *)
Theorem chart_statistics (candles : list Candle) :
  candles <> [] ->
  exists hi lo : Q,
    day_high candles = Some hi /\ day_low candles = Some lo /\
    (exists c, In c candles /\ high c = hi) /\
    (exists c, In c candles /\ low c = lo) /\
    Forall (fun c => (high c <= hi)%Q /\ (lo <= low c)%Q) candles /\
    (Forall (fun c => (low c <= high c)%Q) candles -> (lo <= hi)%Q).
Proof.
  intros Hne. destruct candles as [|c0 cs]; [contradiction|].
  unfold day_high, day_low, Math_max, Math_min. cbn [map fold_left].
  destruct (Math_max_acc (map high cs) (high c0)) as (hi & Hhi & Hhin & Hhle & Hhall).
  destruct (Math_min_acc (map low cs) (low c0)) as (lo & Hlo & Hlin & Hlle & Hlall).
  exists hi, lo. split; [exact Hhi|]. split; [exact Hlo|].
  rewrite List.Forall_forall in Hhall, Hlall.
  split; [|split; [|split]].
  - destruct Hhin as [->|Hin]; [exists c0; split; [now left|reflexivity]|].
    apply in_map_iff in Hin as (c & Hc & Hin). exists c. split; [now right|exact Hc].
  - destruct Hlin as [->|Hin]; [exists c0; split; [now left|reflexivity]|].
    apply in_map_iff in Hin as (c & Hc & Hin). exists c. split; [now right|exact Hc].
  - apply List.Forall_forall. intros c [<-|Hin]; [split; assumption|].
    split; [apply Hhall|apply Hlall]; apply in_map; exact Hin.
  - intros Hsane. apply Forall_inv in Hsane. lra.
Qed.

End ChartFacts.

Lemma chart_statistics_witness :
  exists hi lo : Q,
    MarketCharts.day_high MarketCharts.three_candles = Some hi /\
    MarketCharts.day_low MarketCharts.three_candles = Some lo /\
    (exists c, In c MarketCharts.three_candles /\ MarketCharts.high c = hi) /\
    (exists c, In c MarketCharts.three_candles /\ MarketCharts.low c = lo) /\
    Forall (fun c => (MarketCharts.high c <= hi)%Q /\ (lo <= MarketCharts.low c)%Q)
           MarketCharts.three_candles /\
    (Forall (fun c => (MarketCharts.low c <= MarketCharts.high c)%Q)
            MarketCharts.three_candles -> (lo <= hi)%Q).
Proof.
  apply (chart_statistics MarketCharts.three_candles). discriminate.
Defined.

Example statistics_of_three_candles :
  MarketCharts.day_high MarketCharts.three_candles = Some 24080%Q /\
  MarketCharts.day_low MarketCharts.three_candles = Some 23990%Q /\
  MarketCharts.last_close MarketCharts.three_candles = Some 24015%Q.
Proof. repeat split; reflexivity. Qed.

(** *** The application component: failed fetches *)

Section AppFacts.

Import App.

Context {Net : Type} (fetch : string -> Net -> FetchOutcome * Net).

(** [fetchRecommendations] never touches the error cell. *)
Lemma fetchRecommendations_keeps_error (symbol : string) (n : Net) (st : AppState) :
  error (fst (fetchRecommendations fetch symbol n st)) = error st.
Proof.
  unfold fetchRecommendations.
  destruct (fetch _ n) as [[message|[] status [message|data]] n']; reflexivity.
Qed.

(** Whenever the fetch does not deliver a parsed 2xx body, the stored
    list is the empty one. *)
Lemma fetchRecommendations_failure_stores_empty
    (symbol : string) (n : Net) (st : AppState) :
  (forall status data n',
      fetch ("http://127.0.0.1:8000/api/recommendations/" +:+ symbol) n
      <> (Responded true status (inr data), n')) ->
  recommendations (fst (fetchRecommendations fetch symbol n st)) = JArr [].
Proof.
  intros Hfail. unfold fetchRecommendations.
  destruct (fetch _ n) as [[message|[] status [message|data]] n'] eqn:E;
    try reflexivity.
  exfalso. now apply (Hfail status data n').
Qed.

End AppFacts.

(** C3, at a failing input. Switching the symbol while the server answers
    500 leaves the component in exactly the state it reaches when the
    server answers 200 with an empty list: no error is recorded and the
    "no recommendations" panel is shown. *)
Theorem failed_fetch_looks_like_no_opportunities :
  fst (App.handleSymbolChange App.server_error "BANKNIFTY" tt App.loaded)
  = fst (App.handleSymbolChange App.no_opportunities "BANKNIFTY" tt App.loaded) /\
  App.presented (fst (App.handleSymbolChange App.server_error "BANKNIFTY" tt App.loaded))
  = (None, true).
Proof. split; reflexivity. Qed.

(** The sibling paths tell the two apart. The initial load records the
    failure in the error cell, and the service layer throws. *)
Example fetchInitialData_records_failure :
  App.error (fst (App.fetchInitialData App.server_error (fun _ => 0) tt App.initial))
  = Some "HTTP error! status: 500".
Proof. reflexivity. Qed.

Section ServiceThrows.

Local Existing Instance Js.ascii_engine.

Example apiService_fetchRecommendations_throws :
  fst (ApiService.fetchRecommendations ApiService.internal_error (Some "BANKNIFTY") None
         ApiService.fresh_world)
  = inl (ApiService.Error "Internal Server Error") /\
  fst (ApiService.fetchRecommendations ApiService.empty_list (Some "BANKNIFTY") None
         ApiService.fresh_world)
  = inr (Some []).
Proof. split; reflexivity. Qed.

End ServiceThrows.

(** *** The application component: loading, symbol changes, the feed *)

Section AppMore.

Import App.

Context {Net : Type} (fetch : string -> Net -> FetchOutcome * Net) (clock : Net -> Z).

Lemma fetchRecommendations_frame (symbol : string) (n : Net) (st : AppState) :
  let st' := fst (fetchRecommendations fetch symbol n st) in
  error st' = error st /\ currentPrices st' = currentPrices st /\
  lastUpdated st' = lastUpdated st /\ selectedSymbol st' = selectedSymbol st /\
  loading st' = loading st.
Proof.
  cbv zeta. unfold fetchRecommendations.
  destruct (fetch _ n) as [[message|[] status [message|data]] n1]; simpl; auto.
Qed.

Lemma initial_data_failed_outcome (message : string) (n : Net) (st : AppState) :
  let st' := initial_data_failed clock message n st in
  loading st' = false /\
  lastUpdated st' = Some (clock n) /\
  selectedSymbol st' = selectedSymbol st /\
  (exists msg, error st' = Some msg /\ msg <> "") /\
  currentPrices st' = Some mock_prices /\
  recommendations st' = recommendations st.
Proof.
  cbv zeta. unfold initial_data_failed. simpl. repeat split.
  destruct message; eexists; (split; [reflexivity|discriminate]).
Qed.

Lemma initial_data_loaded (data : Json) (n1 : Net) (st : AppState) :
  let prices := match data with JObj props => prop "prices" props | _ => None end in
  let st1 := setLastUpdated (clock n1) (setCurrentPrices prices (setError None st)) in
  let st' := setLoading false (fst (fetchRecommendations fetch (selectedSymbol st1) n1 st1)) in
  loading st' = false /\
  lastUpdated st' = Some (clock n1) /\
  selectedSymbol st' = selectedSymbol st /\
  error st' = None.
Proof.
  cbv zeta.
  destruct (fetchRecommendations_frame
              (selectedSymbol st) n1
              (setLastUpdated (clock n1)
                 (setCurrentPrices
                    match data with JObj props => prop "prices" props | _ => None end
                    (setError None st))))
    as (He & _ & Hl & Hs & _).
  cbv zeta in *. simpl in *. auto.
Qed.

(** X15. However the prices request ends, the initial load finishes with
    the loading flag off, the time stamp set and the symbol untouched.
    When the request delivered prices no error is recorded; otherwise a
    non-empty error text is recorded, the mock prices are installed and
    the recommendations are left as they were. *)
Theorem fetchInitialData_outcome (n : Net) (st : AppState) :
  let o := fetch "http://127.0.0.1:8000/api/prices" n in
  let st' := fst (fetchInitialData fetch clock n st) in
  loading st' = false /\
  lastUpdated st' = Some (clock (snd o)) /\
  selectedSymbol st' = selectedSymbol st /\
  if prices_delivered (fst o)
  then error st' = None
  else (exists msg, error st' = Some msg /\ msg <> "") /\
       currentPrices st' = Some mock_prices /\
       recommendations st' = recommendations st.
Proof.
  cbv zeta. unfold fetchInitialData.
  destruct (fetch "http://127.0.0.1:8000/api/prices" n)
    as [[message|ok status body] n1]; cbn [fst snd prices_delivered].
  - apply (initial_data_failed_outcome message n1 (setError None st)).
  - destruct ok.
    + destruct body as [message|data].
      * apply (initial_data_failed_outcome message n1 (setError None st)).
      * assert (forall d : Json, d <> JNull ->
                  let prices :=
                    match d with JObj props => prop "prices" props | _ => None end in
                  let st1 := setLastUpdated (clock n1)
                               (setCurrentPrices prices (setError None st)) in
                  let r := fetchRecommendations fetch (selectedSymbol st1) n1 st1 in
                  let st' := fst (let (st2, n2) := r in (setLoading false st2, n2)) in
                  loading st' = false /\ lastUpdated st' = Some (clock n1) /\
                  selectedSymbol st' = selectedSymbol st /\ error st' = None) as Hok.
        { intros d _. pose proof (initial_data_loaded d n1 st) as H. cbv zeta in *.
          destruct (fetchRecommendations fetch _ n1 _) as [st2 n2]. exact H. }
        destruct data as [|b|q|x|items|props];
          [apply (initial_data_failed_outcome _ n1 (setError None st))
          |apply (Hok (JBool b)); discriminate
          |apply (Hok (JNum q)); discriminate
          |apply (Hok (JStr x)); discriminate
          |apply (Hok (JArr items)); discriminate
          |apply (Hok (JObj props)); discriminate].
    + destruct body;
        apply (initial_data_failed_outcome _ n1 (setError None st)).
Qed.

(** X16. Changing the symbol touches nothing but the symbol, the loading
    flag and the recommendations: a recorded error, the prices and the
    time stamp stay as they are, whatever the server answers. The
    request path ends with the symbol exactly as passed, and the stored
    recommendations are the body of a 2xx answer or the empty list. *)
Theorem handleSymbolChange_frame (symbol : string) (n : Net) (st : AppState) :
  let st' := fst (handleSymbolChange fetch symbol n st) in
  selectedSymbol st' = symbol /\
  loading st' = false /\
  error st' = error st /\
  currentPrices st' = currentPrices st /\
  lastUpdated st' = lastUpdated st /\
  (recommendations st' = JArr [] \/
   exists status n',
     fetch ("http://127.0.0.1:8000/api/recommendations/" +:+ symbol) n
     = (Responded true status (inr (recommendations st')), n')).
Proof.
  cbv zeta. unfold handleSymbolChange, fetchRecommendations.
  destruct (fetch _ n) as [[message|[] status [message|data]] n1]; simpl;
    repeat split; try reflexivity; try (left; reflexivity).
  right. eauto.
Qed.

End AppMore.

Section FeedFacts.

Import App.

Lemma feed_run_snoc (events : list FeedEvent) (ev : FeedEvent) (s : AppState * Feed) :
  feed_run (events ++ [ev]) s = feed_step (feed_run events s) ev.
Proof. unfold feed_run. now rewrite fold_left_app. Qed.

Lemma unclean_closes_snoc (events : list FeedEvent) (ev : FeedEvent) :
  unclean_closes (events ++ [ev])
  = (unclean_closes events
     + match ev with Closed false => 1 | _ => 0 end)%nat.
Proof.
  unfold unclean_closes. rewrite List.filter_app, length_app.
  destruct ev as [| | [] | |]; reflexivity.
Qed.


(** X18. Reconnection is driven by unclean closes only: after any
    sequence of feed events, the sockets created plus the reconnection
    timeouts still pending never exceed one (the socket created on
    mount) plus the number of closes that were not clean. *)
Theorem feed_reconnects_bounded (events : list FeedEvent) :
  let f := snd (feed_run events feed_mounted) in
  (sockets f + reconnects f <= 1 + unclean_closes events)%nat.
Proof.
  induction events as [|ev events IH] using rev_ind; [simpl; lia|].
  cbv zeta in *. rewrite feed_run_snoc, unclean_closes_snoc.
  destruct (feed_run events feed_mounted) as [st f]. simpl in IH.
  destruct ev as [|data now|[]| |created]; simpl; try lia.
  destruct (reconnects f) as [|pending] eqn:E; simpl; [lia|].
  destruct created; simpl; lia.
Qed.

End FeedFacts.

(** *** The assistant panel *)

Section ChatFacts.

Import GeminiChat.

Context {engine : Js.Builtins}.

Lemma trim_start_empty (s : string) :
  trim_start s = "" <-> Forall (fun c => is_space c = true) (list_ascii_of_string s).
Proof.
  induction s as [|c s IH]; simpl.
  - split; [constructor|reflexivity].
  - destruct (is_space c) eqn:E.
    + rewrite IH. split; [now constructor|intros H; now apply Forall_inv_tail in H].
    + split; [discriminate|]. intros H. apply Forall_inv in H. congruence.
Qed.

Lemma trim_end_empty (s : string) :
  trim_end s = "" <-> Forall (fun c => is_space c = true) (list_ascii_of_string s).
Proof.
  induction s as [|c s IH]; simpl.
  - split; [constructor|reflexivity].
  - destruct (trim_end s) as [|c' t] eqn:Et.
    + destruct (is_space c) eqn:E.
      * split; [|reflexivity]. intros _. constructor; [exact E|]. now apply IH.
      * split; [discriminate|]. intros H. apply Forall_inv in H. congruence.
    + split; [discriminate|]. intros H. apply Forall_inv_tail in H.
      apply IH in H. discriminate.
Qed.

Lemma trim_start_head (s : string) :
  match trim_start s with
  | EmptyString => True
  | String c _ => is_space c = false
  end.
Proof.
  induction s as [|c s IH]; simpl; [exact I|].
  destruct (is_space c) eqn:E; [exact IH|exact E].
Qed.

(** On an ASCII string [s.trim()] is empty exactly for a string of white
    space. *)
Lemma ascii_trim_empty (s : string) :
  ascii_trim s = "" <-> Forall (fun c => is_space c = true) (list_ascii_of_string s).
Proof.
  unfold ascii_trim. rewrite trim_end_empty. split.
  - intros H. apply trim_start_empty.
    pose proof (trim_start_head s) as Hh.
    destruct (trim_start s) as [|c t]; [reflexivity|].
    apply Forall_inv in H. congruence.
  - intros H. apply trim_start_empty in H. rewrite H. constructor.
Qed.

Lemma is_space_ascii (c : ascii) : is_space c = true -> Js.is_ascii c = true.
Proof.
  unfold is_space, Js.is_ascii. intros Hc. apply Nat.ltb_lt.
  apply orb_prop in Hc as [Hc|Hc].
  - apply andb_prop in Hc as [_ Hc]. apply Nat.leb_le in Hc. lia.
  - apply Nat.eqb_eq in Hc. lia.
Qed.

Lemma blank_all_ascii (s : string) :
  Forall (fun c => is_space c = true) (list_ascii_of_string s) -> Js.all_ascii s = true.
Proof.
  induction s as [|c s IH]; simpl; [reflexivity|].
  intros Hs. rewrite (is_space_ascii c (Forall_inv Hs)). apply IH.
  exact (Forall_inv_tail Hs).
Qed.

(** A string of ASCII white space trims to the empty string. *)
Lemma trim_blank (s : string) :
  Forall (fun c => is_space c = true) (list_ascii_of_string s) -> trim s = "".
Proof.
  intros Hs. unfold trim. rewrite (blank_all_ascii s Hs). now apply ascii_trim_empty.
Qed.

Context {Net : Type} (post : string -> Net -> App.FetchOutcome * Net).
Context (String_ : App.Json -> string) (null_read_message : string -> string).

Local Abbreviation handleAskGemini := (handleAskGemini post String_ null_read_message).

(** X21. Asking with an empty question, or with one made of white space
    only, sends nothing: the server is not contacted, the error cell
    reads "Please enter a question." and every other cell, the previous
    answer included, is left as it was. *)
Theorem ask_blank_question_sends_nothing (n : Net) (st : ChatState) :
  Forall (fun c => is_space c = true) (list_ascii_of_string (question st)) ->
  handleAskGemini n st
  = ({| question := question st; answer := answer st; isLoading := isLoading st;
        error := "Please enter a question."; showWelcome := showWelcome st |},
     n, []).
Proof.
  intros Hblank. apply trim_blank in Hblank.
  unfold GeminiChat.handleAskGemini. now rewrite Hblank.
Qed.




Lemma input_run_snoc (inputs : list Input) (i : Input) (st : ChatState) :
  fold_left input_step (inputs ++ [i]) st = input_step (fold_left input_step inputs st) i.
Proof. now rewrite fold_left_app. Qed.

(** X23. The welcome card is never brought back by typing: after any
    sequence of typing and quick-question clicks it is still shown
    exactly when it was shown before and every input was typing that left
    the field blank. *)
Theorem welcome_card_after_inputs (inputs : list Input) (st : ChatState) :
  showWelcome (fold_left input_step inputs st)
  = showWelcome st && forallb only_blank_typing inputs.
Proof.
  induction inputs as [|i inputs IH] using rev_ind.
  - simpl. now rewrite andb_true_r.
  - rewrite input_run_snoc, forallb_app. cbn [forallb]. rewrite andb_true_r.
    destruct i as [value|q]; simpl.
    + rewrite IH.
      destruct (showWelcome st), (forallb only_blank_typing inputs),
        (String.eqb (trim value) ""); reflexivity.
    + now rewrite !andb_false_r.
Qed.

End ChatFacts.

(** Concrete questions, on the engine of the examples. *)
Section ChatRuns.

Local Existing Instance Js.ascii_engine.

Lemma ask_blank_question_sends_nothing_witness :
  GeminiChat.handleAskGemini GeminiChat.answering GeminiChat.string_of_json
    GeminiChat.v8_null_read tt
    (GeminiChat.handleQuestionChange "   " GeminiChat.initial)
  = ({| GeminiChat.question := "   ";
        GeminiChat.answer := Some (App.JStr "");
        GeminiChat.isLoading := false;
        GeminiChat.error := "Please enter a question.";
        GeminiChat.showWelcome := true |},
     tt, []).
Proof.
  apply (ask_blank_question_sends_nothing GeminiChat.answering
           GeminiChat.string_of_json GeminiChat.v8_null_read tt
           (GeminiChat.handleQuestionChange "   " GeminiChat.initial)).
  repeat constructor.
Defined.


Example ask_refused :
  GeminiChat.error
    (GeminiChat.handleAskGemini GeminiChat.refusing GeminiChat.string_of_json
       GeminiChat.v8_null_read tt
       (GeminiChat.handleQuickQuestion "Bear put spread example" GeminiChat.initial)).1.1
  = "Sorry, something went wrong: Gemini is unavailable".
Proof. reflexivity. Qed.

Example ask_answered :
  GeminiChat.answer
    (GeminiChat.handleAskGemini GeminiChat.answering GeminiChat.string_of_json
       GeminiChat.v8_null_read tt
       (GeminiChat.handleQuickQuestion "What is a bull call spread?" GeminiChat.initial)).1.1
  = Some (App.JStr "A bull call spread is a debit spread.").
Proof. reflexivity. Qed.

End ChatRuns.

(** *** The price cards after a failed load *)

Section PriceFacts.

Import App.

Context {Net : Type} (fetch : string -> Net -> FetchOutcome * Net) (clock : Net -> Z).

(** X24. Whenever the prices request fails to deliver (no connection, a
    status outside 2xx, a body that is not JSON or is [null]), the price
    cards show the built-in mock prices, 25111.45 for NIFTY and 56828.80
    for BANKNIFTY, next to the recorded error. *)
Theorem failed_load_shows_mock_prices (n : Net) (st : AppState) :
  prices_delivered (fst (fetch "http://127.0.0.1:8000/api/prices" n)) = false ->
  let st' := fst (fetchInitialData fetch clock n st) in
  PriceDisplay.niftyPrice (currentPrices st') = JNum (2511145 # 100) /\
  PriceDisplay.bankniftyPrice (currentPrices st') = JNum (5682880 # 100) /\
  error st' <> None.
Proof.
  intros Hfail. cbv zeta.
  assert (currentPrices (fst (fetchInitialData fetch clock n st)) = Some mock_prices /\
          error (fst (fetchInitialData fetch clock n st)) <> None) as [Hp He].
  { unfold fetchInitialData.
    destruct (fetch "http://127.0.0.1:8000/api/prices" n)
      as [[message|[] status [message|[| | | | |]]] n1];
      cbn [fst prices_delivered] in Hfail; try discriminate;
      (split; [reflexivity|discriminate]). }
  rewrite Hp. split; [reflexivity|]. split; [reflexivity|exact He].
Qed.

End PriceFacts.

Lemma failed_load_shows_mock_prices_witness :
  let st' := fst (App.fetchInitialData App.server_error (fun _ => 0) tt App.initial) in
  PriceDisplay.niftyPrice (App.currentPrices st') = App.JNum (2511145 # 100) /\
  PriceDisplay.bankniftyPrice (App.currentPrices st') = App.JNum (5682880 # 100) /\
  App.error st' <> None.
Proof.
  apply (failed_load_shows_mock_prices App.server_error (fun _ => 0) tt App.initial).
  reflexivity.
Defined.

(** *** The analyzer: ATM strike and acceptance band *)

Section AnalyzerFacts.

Import SpreadAnalyzer.

Local Open Scope Q_scope.

Lemma round_half_even_close (q : Q) :
  - (1 # 2) <= q - inject_Z (round_half_even q) <= 1 # 2.
Proof.
  unfold round_half_even.
  pose proof (Qfloor_le q) as Hlo.
  pose proof (Qlt_floor q) as Hhi.
  rewrite inject_Z_plus in Hhi. change (inject_Z 1) with 1 in Hhi.
  destruct (q - inject_Z (Qfloor q) ?= 1 # 2) eqn:E.
  - apply Qeq_alt in E.
    destruct (Z.even (Qfloor q)).
    + lra.
    + rewrite inject_Z_plus. change (inject_Z 1) with 1. lra.
  - apply Qlt_alt in E. lra.
  - apply Qgt_alt in E. rewrite inject_Z_plus. change (inject_Z 1) with 1. lra.
Qed.

(** No integer is closer to [q] than the rounded one. *)
Lemma round_half_even_nearest (q : Q) (m : Z) :
  Qabs (q - inject_Z (round_half_even q)) <= Qabs (q - inject_Z m).
Proof.
  pose proof (round_half_even_close q) as [Hlo Hhi].
  set (k := round_half_even q) in *.
  destruct (Z.lt_trichotomy m k) as [Hlt|[->|Hgt]].
  - assert (inject_Z (m + 1) <= inject_Z k) as Hm by (rewrite <- Zle_Qle; lia).
    rewrite inject_Z_plus in Hm. change (inject_Z 1) with 1 in Hm.
    apply Qle_trans with (1 # 2); [apply Qabs_Qle_condition; split; lra|].
    apply Qle_trans with (q - inject_Z m); [lra|apply Qle_Qabs].
  - apply Qle_refl.
  - assert (inject_Z (k + 1) <= inject_Z m) as Hm by (rewrite <- Zle_Qle; lia).
    rewrite inject_Z_plus in Hm. change (inject_Z 1) with 1 in Hm.
    apply Qle_trans with (1 # 2); [apply Qabs_Qle_condition; split; lra|].
    apply Qle_trans with (- (q - inject_Z m)); [lra|].
    rewrite <- Qabs_opp. apply Qle_Qabs.
Qed.

Lemma distance_to_multiple (price interval : Q) (m : Z) :
  0 < interval ->
  Qabs (price - inject_Z m * interval)
  == Qabs (price / interval - inject_Z m) * interval.
Proof.
  intros Hpos.
  assert (price - inject_Z m * interval
          == (price / interval - inject_Z m) * interval) as ->
    by (field; lra).
  rewrite Qabs_Qmult. rewrite (Qabs_pos interval) by lra. reflexivity.
Qed.

(** C7. For every price and every positive strike interval the ATM
    strike is [round(price / interval) * interval]; it is an integer
    multiple of the interval, and no integer multiple of the interval is
    closer to the price. *)
Theorem atm_strike_nearest_multiple (current_price strike_interval : Q) :
  0 < strike_interval ->
  atm_strike current_price strike_interval
    = inject_Z (round_half_even (current_price / strike_interval)) * strike_interval /\
  (exists k : Z, atm_strike current_price strike_interval == inject_Z k * strike_interval) /\
  (forall m : Z,
      Qabs (current_price - atm_strike current_price strike_interval)
      <= Qabs (current_price - inject_Z m * strike_interval)).
Proof.
  intros Hpos. split; [reflexivity|]. split.
  - eexists. unfold atm_strike. reflexivity.
  - intros m. unfold atm_strike.
    rewrite !distance_to_multiple by exact Hpos.
    apply Qmult_le_compat_r; [|lra].
    apply round_half_even_nearest.
Qed.

(** The spec's scenario: price 24000, interval 50. A price half-way
    between two strikes goes to the even multiple. *)
Example atm_24000 : atm_strike 24000 50 == 24000.
Proof. reflexivity. Qed.

Example atm_24030 : atm_strike 24030 50 == 24050.
Proof. reflexivity. Qed.

Example atm_half_way_even : atm_strike 24025 50 == 24000 /\ atm_strike 24075 50 == 24100.
Proof. split; reflexivity. Qed.

Section Band.

Context (probability_of : Q -> Q) (lot_size : Q).

Local Abbreviation make_spread := (make_spread probability_of lot_size).
Local Abbreviation spreads_of := (spreads_of probability_of lot_size).
Local Abbreviation analyze := (analyze probability_of lot_size).

Lemma in_band_bounds (d : Q) :
  in_band d = true <-> band_low <= d <= band_high.
Proof.
  unfold in_band. rewrite andb_true_iff, !Qle_bool_iff. reflexivity.
Qed.

Lemma insert_ranked_In (x y : SpreadRecommendation) (l : list SpreadRecommendation) :
  In y (insert_ranked x l) <-> y = x \/ In y l.
Proof.
  induction l as [|z l IH]; simpl.
  - intuition.
  - destruct (ranks_no_later x z); simpl; [intuition|].
    rewrite IH. intuition.
Qed.

Lemma rank_In (y : SpreadRecommendation) (l : list SpreadRecommendation) :
  In y (rank l) <-> In y l.
Proof.
  induction l as [|x l IH]; simpl; [reflexivity|].
  rewrite insert_ranked_In, IH. intuition.
Qed.

Lemma firstn_incl {A} (n : nat) (l : list A) (x : A) : In x (firstn n l) -> In x l.
Proof.
  intros Hin. rewrite <- (firstn_skipn n l). apply in_or_app. now left.
Qed.

Lemma spreads_of_acceptable (t : OptionType) (strikes_range : nat) (atm : Q)
    (contracts : list OptionContract) (r : SpreadRecommendation) :
  In r (spreads_of t strikes_range atm contracts) ->
  acceptable r = true /\
  delta_difference r = Qabs (buy_delta r - sell_delta r).
Proof.
  unfold SpreadAnalyzer.spreads_of.
  destruct (List.filter (at_strike atm) _) as [|buy rest]; [intros []|].
  intros Hin. apply filter_In in Hin as [Hin Hacc]. split; [exact Hacc|].
  apply in_map_iff in Hin as (sell & <- & _). reflexivity.
Qed.

Lemma analyze_acceptable (contracts : list OptionContract)
    (current_price strike_interval : Q) (strikes_range limit : nat)
    (r : SpreadRecommendation) :
  In r (analyze contracts current_price strike_interval strikes_range limit) ->
  acceptable r = true /\
  delta_difference r = Qabs (buy_delta r - sell_delta r).
Proof.
  unfold SpreadAnalyzer.analyze. intros Hin.
  apply firstn_incl in Hin. rewrite rank_In in Hin.
  apply in_app_or in Hin as [Hin|Hin]; eapply spreads_of_acceptable; exact Hin.
Qed.

(** C1. Every recommendation an analysis run returns has its
    [delta_difference], the magnitude of the difference of its legs'
    deltas, inside the closed band [0.15, 0.26]; a spread built from a
    pair of legs whose delta difference lies outside the band is not in
    the result. *)
Theorem analyze_delta_difference_in_band (contracts : list OptionContract)
    (current_price strike_interval : Q) (strikes_range limit : nat) :
  Forall (fun r =>
            (15 # 100 <= delta_difference r <= 26 # 100) /\
            delta_difference r = Qabs (buy_delta r - sell_delta r))
         (analyze contracts current_price strike_interval strikes_range limit) /\
  (forall (k : SpreadKind) (buy sell : OptionContract),
      ~ (15 # 100 <= Qabs (delta buy - delta sell) <= 26 # 100) ->
      ~ In (make_spread k buy sell)
           (analyze contracts current_price strike_interval strikes_range limit)).
Proof.
  split.
  - apply List.Forall_forall. intros r Hin.
    apply analyze_acceptable in Hin as [Hacc Hdd]. split; [|exact Hdd].
    unfold acceptable in Hacc. rewrite !andb_true_iff in Hacc.
    destruct Hacc as [[Hband _] _]. now apply in_band_bounds in Hband.
  - intros k buy sell Hout Hin. apply Hout.
    apply analyze_acceptable in Hin as [Hacc _].
    unfold acceptable in Hacc. rewrite !andb_true_iff in Hacc.
    destruct Hacc as [[Hband _] _]. now apply in_band_bounds in Hband.
Qed.

(** The ranking of the analysis. *)
Lemma ranks_no_later_spec (a b : SpreadRecommendation) :
  ranks_no_later a b = true <->
  risk_reward_ratio b < risk_reward_ratio a \/
  (risk_reward_ratio a == risk_reward_ratio b /\
   (total_volume b < total_volume a \/
    (total_volume a == total_volume b /\ off_midpoint a <= off_midpoint b))).
Proof.
  unfold ranks_no_later.
  destruct (Qcompare_spec (risk_reward_ratio a) (risk_reward_ratio b)) as [Hr|Hr|Hr];
    [destruct (Qcompare_spec (total_volume a) (total_volume b)) as [Hv|Hv|Hv]| |];
    rewrite ?Qle_bool_iff; split; intros H; try discriminate; try reflexivity; try lra.
Qed.

Lemma ranks_no_later_total (a b : SpreadRecommendation) :
  ranks_no_later a b = true \/ ranks_no_later b a = true.
Proof.
  rewrite !ranks_no_later_spec.
  destruct (Qlt_le_dec (risk_reward_ratio b) (risk_reward_ratio a));
    destruct (Qlt_le_dec (risk_reward_ratio a) (risk_reward_ratio b));
    destruct (Qlt_le_dec (total_volume b) (total_volume a));
    destruct (Qlt_le_dec (total_volume a) (total_volume b));
    destruct (Qlt_le_dec (off_midpoint b) (off_midpoint a));
    lra.
Qed.

Lemma ranks_no_later_trans (a b c : SpreadRecommendation) :
  ranks_no_later a b = true -> ranks_no_later b c = true -> ranks_no_later a c = true.
Proof. rewrite !ranks_no_later_spec. lra. Qed.

Lemma insert_ranked_sorted (x : SpreadRecommendation) (l : list SpreadRecommendation) :
  StronglySorted (fun a b => ranks_no_later a b = true) l ->
  StronglySorted (fun a b => ranks_no_later a b = true) (insert_ranked x l).
Proof.
  induction 1 as [|y l Hs IH Hy]; simpl.
  - repeat constructor.
  - destruct (ranks_no_later x y) eqn:E.
    + constructor; [now constructor|].
      constructor; [exact E|].
      eapply List.Forall_impl; [|exact Hy].
      intros z Hz. now apply ranks_no_later_trans with y.
    + constructor; [exact IH|].
      apply List.Forall_forall. intros z Hz.
      apply insert_ranked_In in Hz as [->|Hz].
      * destruct (ranks_no_later_total x y) as [H|H]; congruence.
      * rewrite List.Forall_forall in Hy. now apply Hy.
Qed.

Lemma rank_sorted (l : list SpreadRecommendation) :
  StronglySorted (fun a b => ranks_no_later a b = true) (rank l).
Proof.
  induction l as [|x l IH]; simpl; [constructor|]. now apply insert_ranked_sorted.
Qed.

Lemma firstn_sorted {A} (R : A -> A -> Prop) (n : nat) (l : list A) :
  StronglySorted R l -> StronglySorted R (firstn n l).
Proof.
  intros Hs. revert n. induction Hs as [|x l Hs IH Hx]; intros [|n]; simpl;
    try constructor; [apply IH|].
  apply List.Forall_forall. intros y Hy. apply firstn_incl in Hy.
  rewrite List.Forall_forall in Hx. now apply Hx.
Qed.

(** What the analysis returns is in the documented order: a
    recommendation stands before another only if its ratio is higher, or
    the ratios are equal and its volume is higher, or both are equal and
    its delta difference is at least as close to 0.20. *)
Lemma analyze_ranked (contracts : list OptionContract)
    (current_price strike_interval : Q) (strikes_range limit : nat) :
  StronglySorted (fun a b => ranks_no_later a b = true)
    (analyze contracts current_price strike_interval strikes_range limit).
Proof. unfold SpreadAnalyzer.analyze. apply firstn_sorted, rank_sorted. Qed.

(** The strike window around the ATM strike. *)
Lemma last_n_length {A} (n : nat) (l : list A) : length (last_n n l) = Nat.min n (length l).
Proof. unfold last_n. rewrite length_skipn. lia. Qed.

Lemma strike_window_length (strikes_range : nat) (atm : Q) (cs : list OptionContract) :
  length (strike_window strikes_range atm cs)
  = (Nat.min strikes_range (length (List.filter (below atm) cs))
     + length (List.filter (at_strike atm) cs)
     + Nat.min strikes_range (length (List.filter (above atm) cs)))%nat.
Proof.
  unfold strike_window. rewrite !length_app, last_n_length, length_firstn. lia.
Qed.

End Band.

End AnalyzerFacts.

(** The spec's scenarios on the sample chain (lot size 75): the call at
    24300 (delta 0.40 against 0.62, difference 0.22) and the put at 23700
    (difference 0.20) give the two recommendations; the call at 24400
    (difference 0.12) and the put at 23850 (difference 0.12) give none. *)
Example analyze_sample_chain :
  map (fun r => (SpreadAnalyzer.kind r, SpreadAnalyzer.sell_strike r,
                 Qred (SpreadAnalyzer.delta_difference r)))
      (SpreadAnalyzer.analyze SpreadAnalyzer.flat_probability 75
         SpreadAnalyzer.sample_chain 24000 50 6 10)
  = [(SpreadAnalyzer.BULL_CALL, 24300%Q, (11 # 50)%Q);
     (SpreadAnalyzer.BEAR_PUT, 23700%Q, (1 # 5)%Q)].
Proof. vm_compute. reflexivity. Qed.

Lemma atm_strike_nearest_multiple_witness :
  (exists k : Z, (SpreadAnalyzer.atm_strike 24030 50 == inject_Z k * 50)%Q) /\
  (forall m : Z,
      (Qabs (24030 - SpreadAnalyzer.atm_strike 24030 50)
       <= Qabs (24030 - inject_Z m * 50))%Q).
Proof.
  apply (atm_strike_nearest_multiple 24030 50). reflexivity.
Defined.

(** *** The default strike window of a recommendations request *)

(** C6. When the caller passes no [strikesRange], every request that
    [fetchRecommendations] sends (there is at least one and there are at
    most three) carries [strikes_range = 6]. A window of 6 strikes on
    each side of the ATM strike holds 13 strikes, the ATM strike
    included, whenever the chain has that many on each side. *)
Theorem fetchRecommendations_default_strike_window
    {engine : Js.Builtins} {Net Data : Type}
    (http : ApiService.Request -> Net -> (ApiService.AxiosError + Data) * Net)
    (symbol : option string) (w : ApiService.World Net) :
  (exists k : nat, (1 <= k <= 3)%nat /\
     ApiService.requests_of
       (ApiService.trace (snd (ApiService.fetchRecommendations http symbol None w)))
     = ApiService.requests_of (ApiService.trace w)
       ++ repeat
            (ApiService.mkRequest ApiService.POST "/api/recommendations" []
               [("symbol", ApiService.PStr (ApiService.toUpperCase (default "NIFTY" symbol)));
                ("strikes_range", ApiService.PNum 6)])
            k) /\
  (forall (atm : Q) (chain : list SpreadAnalyzer.OptionContract),
      (6 <= length (List.filter (SpreadAnalyzer.below atm) chain))%nat ->
      length (List.filter (SpreadAnalyzer.at_strike atm) chain) = 1%nat ->
      (6 <= length (List.filter (SpreadAnalyzer.above atm) chain))%nat ->
      length (SpreadAnalyzer.strike_window (Z.to_nat 6) atm chain) = 13%nat).
Proof.
  split.
  - apply fetchRecommendations_requests.
  - intros atm chain Hb Ha Hu. rewrite strike_window_length, Ha.
    change (Z.to_nat 6) with 6%nat. lia.
Qed.

(** Out of 21 call strikes from 23500 to 24500 the window around 24000
    keeps the 13 from 23700 to 24300. *)
Example strike_window_of_21 :
  map (fun c => Qred (SpreadAnalyzer.strike c))
      (SpreadAnalyzer.strike_window 6 24000 SpreadAnalyzer.twenty_one_calls)
  = map (fun i : nat => inject_Z (23700 + 50 * Z.of_nat i)) (seq 0 13).
Proof. vm_compute. reflexivity. Qed.

(** A chain with fewer strikes on a side gives what there is. *)
Example strike_window_short_side :
  length (SpreadAnalyzer.strike_window 6 23600 SpreadAnalyzer.twenty_one_calls) = 9%nat.
Proof. vm_compute. reflexivity. Qed.

(** *** The ranking of the recommendations, from the analysis to the table *)

Section RankingFacts.

Import SpreadAnalyzer.

Local Open Scope Q_scope.

Lemma StronglySorted_lookup {A} (R : A -> A -> Prop) (l : list A) :
  StronglySorted R l ->
  forall (i j : nat) (a b : A),
    l !! i = Some a -> l !! j = Some b -> (i < j)%nat -> R a b.
Proof.
  induction 1 as [|x l Hs IH Hx]; intros i j a b Hi Hj Hij; [discriminate|].
  destruct j as [|j]; [lia|]. cbn in Hj.
  destruct i as [|i]; cbn in Hi.
  - injection Hi as <-. exact (Forall_lookup_1 _ _ _ _ Hx Hj).
  - apply (IH i j); [exact Hi|exact Hj|lia].
Qed.

Lemma sorts_before_not_later (a b : SpreadRecommendation) :
  sorts_before a b -> ranks_no_later b a = true -> False.
Proof.
  unfold sorts_before. rewrite ranks_no_later_spec. lra.
Qed.

Lemma sorts_before_irrefl (a : SpreadRecommendation) : ~ sorts_before a a.
Proof. unfold sorts_before. lra. Qed.

Lemma tied_spec (a b : SpreadRecommendation) :
  tied a b = true <->
  risk_reward_ratio a == risk_reward_ratio b /\
  total_volume a == total_volume b /\
  off_midpoint a == off_midpoint b.
Proof.
  unfold tied. rewrite !andb_true_iff, !Qeq_bool_iff. tauto.
Qed.

(** Any two recommendations are ordered by the three keys, or tied on
    all of them. *)
Lemma sorts_before_total (a b : SpreadRecommendation) :
  sorts_before a b \/ sorts_before b a \/ tied a b = true.
Proof.
  rewrite tied_spec. unfold sorts_before.
  destruct (Q_dec (risk_reward_ratio a) (risk_reward_ratio b)) as [[Hr|Hr]|Hr];
    [lra|lra|].
  destruct (Q_dec (total_volume a) (total_volume b)) as [[Hv|Hv]|Hv];
    [lra|lra|].
  destruct (Q_dec (off_midpoint a) (off_midpoint b)) as [[Ho|Ho]|Ho]; lra.
Qed.

Lemma tied_ranks_no_later (x a b : SpreadRecommendation) :
  tied x a = true -> tied x b = true -> ranks_no_later a b = true.
Proof.
  rewrite !tied_spec, ranks_no_later_spec. lra.
Qed.

Lemma insert_ranked_filter (same : SpreadRecommendation -> bool)
    (x : SpreadRecommendation) (l : list SpreadRecommendation) :
  (forall a b, same a = true -> same b = true -> ranks_no_later a b = true) ->
  List.filter same (insert_ranked x l) = List.filter same (x :: l).
Proof.
  intros Htie. induction l as [|y l IH]; [reflexivity|].
  cbn [insert_ranked].
  destruct (ranks_no_later x y) eqn:E; [reflexivity|].
  cbn [List.filter] in *. rewrite IH.
  destruct (same x) eqn:Ex, (same y) eqn:Ey; try reflexivity.
  specialize (Htie x y Ex Ey). congruence.
Qed.

(** The ranking is a stable sort: recommendations tied on the three keys
    keep the order in which they were generated. *)
Lemma rank_stable (x : SpreadRecommendation) (l : list SpreadRecommendation) :
  List.filter (tied x) (rank l) = List.filter (tied x) l.
Proof.
  induction l as [|y l IH]; [reflexivity|].
  cbn [rank]. rewrite insert_ranked_filter by apply tied_ranks_no_later.
  cbn [List.filter]. now rewrite IH.
Qed.

Lemma insert_ranked_perm (x : SpreadRecommendation) (l : list SpreadRecommendation) :
  Permutation (x :: l) (insert_ranked x l).
Proof.
  induction l as [|y l IH]; [reflexivity|].
  cbn [insert_ranked]. destruct (ranks_no_later x y); [reflexivity|].
  rewrite perm_swap. now apply perm_skip.
Qed.

Lemma rank_perm (l : list SpreadRecommendation) : Permutation l (rank l).
Proof.
  induction l as [|x l IH]; [reflexivity|].
  cbn [rank]. rewrite <- insert_ranked_perm. now apply perm_skip.
Qed.

(** A parsed list that carries the numbers of a ranked list is in
    descending order of ratio, and its ratios are numbers. *)
Lemma shown_ranked_is_descending (h : RecommendationsTable.Heap)
    (elems : list RecommendationsTable.loc) (rs : list SpreadRecommendation) :
  Forall2 (Received.shows h) elems rs ->
  StronglySorted (fun a b => ranks_no_later a b = true) rs ->
  Forall (fun a => is_Some (RecommendationsTable.number_of h "risk_reward_ratio" a)) elems /\
  StronglySorted
    (fun a b => RecommendationsTable.num h "risk_reward_ratio" b
                <= RecommendationsTable.num h "risk_reward_ratio" a) elems.
Proof.
  induction 1 as [|a r elems rs Har Hrest IH]; intros Hs.
  - split; constructor.
  - apply StronglySorted_inv in Hs as [Hs Hr].
    destruct (IH Hs) as [Hnum Hsorted].
    destruct Har as (Hratio & _ & _).
    split; [constructor; [rewrite Hratio; eauto|exact Hnum]|].
    constructor; [exact Hsorted|].
    clear IH Hs Hnum Hsorted.
    induction Hrest as [|a' r' elems rs Har' _ IH']; constructor.
    + destruct Har' as (Hratio' & _ & _).
      apply Forall_inv in Hr. apply ranks_no_later_spec in Hr.
      unfold RecommendationsTable.num. rewrite Hratio, Hratio'. cbn. lra.
    + apply IH'. now apply Forall_inv_tail in Hr.
Qed.

Context (probability_of : Q -> Q) (lot_size : Q).

Local Abbreviation spreads_of := (spreads_of probability_of lot_size).
Local Abbreviation analyze := (analyze probability_of lot_size).

(** C2. The recommendations an analysis run returns are in the
    documented order, and the table displays them in it. Of two
    recommendations of the output the one with the higher risk-reward
    ratio stands first; with equal ratios the one with the higher
    combined volume; with equal ratio and volume the one whose delta
    difference is closer to 0.20. The order is total: two
    recommendations are ordered by these keys or tied on all three. It
    is stable: the output is the head of a rearrangement of the
    generated spreads in which those tied on all three keys keep the
    order in which they were generated. And when the table receives the
    output, parsed into objects that carry its numbers, its initial sort
    (ratio, descending) leaves every recommendation where the analysis
    put it. *)
Theorem recommendations_ranking_stable_total
    (contracts : list OptionContract) (current_price strike_interval : Q)
    (strikes_range limit : nat) :
  let out := analyze contracts current_price strike_interval strikes_range limit in
  let generated :=
    let atm := atm_strike current_price strike_interval in
    spreads_of CALL strikes_range atm contracts
    ++ spreads_of PUT strikes_range atm contracts in
  (forall (i j : nat) (a b : SpreadRecommendation),
      out !! i = Some a -> out !! j = Some b -> sorts_before a b -> (i < j)%nat) /\
  (forall a b : SpreadRecommendation,
      sorts_before a b \/ sorts_before b a \/ tied a b = true) /\
  (exists ranked : list SpreadRecommendation,
      out = firstn limit ranked /\
      Permutation generated ranked /\
      forall x : SpreadRecommendation,
        List.filter (tied x) ranked = List.filter (tied x) generated) /\
  (forall (localeCompare : string -> string -> Z) (numberToString : Q -> string)
          (h : RecommendationsTable.Heap) (recommendations : RecommendationsTable.loc)
          (elems : list RecommendationsTable.loc),
      RecommendationsTable.arrays h !! recommendations = Some elems ->
      Forall2 (Received.shows h) elems out ->
      exists (sorted : RecommendationsTable.loc) (h' : RecommendationsTable.Heap),
        RecommendationsTable.sortedRecommendations localeCompare numberToString
          RecommendationsTable.initial_state h recommendations
        = Some (sorted, h') /\
        RecommendationsTable.arrays h' !! sorted = Some elems).
Proof.
  intros out generated.
  pose proof (analyze_ranked probability_of lot_size contracts current_price
                strike_interval strikes_range limit) as Hranked.
  fold out in Hranked.
  split; [|split; [exact sorts_before_total|split]].
  - intros i j a b Hi Hj Hab.
    destruct (lt_eq_lt_dec i j) as [[Hlt|Heq]|Hgt]; [exact Hlt| |].
    + exfalso. subst j. rewrite Hi in Hj. injection Hj as <-.
      exact (sorts_before_irrefl a Hab).
    + exfalso. apply (sorts_before_not_later a b Hab).
      exact (StronglySorted_lookup _ _ Hranked j i b a Hj Hi Hgt).
  - exists (rank generated).
    split; [reflexivity|]. split; [apply rank_perm|]. intros x. apply rank_stable.
  - intros localeCompare numberToString h recommendations elems Hrecs Hshown.
    destruct (shown_ranked_is_descending h elems out Hshown Hranked) as [Hnum Hdesc].
    destruct (sortedRecommendations_ratio_descending_stable
                localeCompare numberToString h recommendations elems Hrecs Hnum)
      as (sorted & h' & out' & Hsort & Harr & _ & _ & _ & Hid).
    exists sorted, h'. split; [exact Hsort|].
    rewrite Harr. f_equal. now apply Hid.
Qed.

End RankingFacts.

(** The analysis of the sample chain, parsed and handed to the table: two
    recommendations, displayed in the order of the analysis. *)
Example table_shows_sample_analysis :
  let out := SpreadAnalyzer.analyze SpreadAnalyzer.flat_probability 75
               SpreadAnalyzer.sample_chain 24000 50 6 10 in
  let h := Received.parsed out in
  RecommendationsTable.arrays h !! 3%positive = Some [1; 2]%positive /\
  Forall2 (Received.shows h) [1; 2]%positive out /\
  exists h',
    RecommendationsTable.sortedRecommendations
      RecommendationsTable.codeunit_compare RecommendationsTable.plain_number
      RecommendationsTable.initial_state h 3%positive
    = Some (4%positive, h') /\
    RecommendationsTable.arrays h' !! 4%positive = Some [1; 2]%positive.
Proof.
  cbv zeta. split; [vm_compute; reflexivity|]. split.
  - repeat constructor; vm_compute; reflexivity.
  - eexists. split; vm_compute; reflexivity.
Qed.

(** Two generated spreads tied on ratio and on volume: the one closer to
    0.20 is ranked first, whichever was generated first. *)
Example closer_to_midpoint_ranks_first :
  let near := SpreadAnalyzer.make_spread SpreadAnalyzer.flat_probability 75
                SpreadAnalyzer.BULL_CALL
                (SpreadAnalyzer.contract SpreadAnalyzer.CALL 24000 200 (62 # 100) 1000)
                (SpreadAnalyzer.contract SpreadAnalyzer.CALL 24300 90 (41 # 100) 700) in
  let far := SpreadAnalyzer.make_spread SpreadAnalyzer.flat_probability 75
               SpreadAnalyzer.BULL_CALL
               (SpreadAnalyzer.contract SpreadAnalyzer.CALL 24000 200 (62 # 100) 1000)
               (SpreadAnalyzer.contract SpreadAnalyzer.CALL 24300 90 (37 # 100) 700) in
  SpreadAnalyzer.rank [far; near] = [near; far] /\
  SpreadAnalyzer.rank [near; far] = [near; far].
Proof. split; vm_compute; reflexivity. Qed.

(** *** The session manager: single-flight refresh *)

Example three_callers_all_at_once :
  SessionManager.run (SessionManager.all_at_once 3%nat)
    (SessionManager.start SessionManager.expired 3%nat)
  = Some (SessionManager.all_returned 3%nat).
Proof. reflexivity. Qed.

Section SessionFacts.

Import SessionManager.

Local Open Scope nat_scope.









(** No reachable state is stuck while a caller is still under way. *)
Lemma no_deadlock (s : System) (i : nat) (c : Caller) :
  single_flight s -> s.2 !! i = Some c -> finished c = false ->
  exists a s', fire a s = Some s'.
Proof.
  intros [_ B1 _ _ _ _ _ _] Hi Hc. destruct s as [m cs]. simpl in *.
  destruct c; try discriminate.
  - exists (Enter i). simpl. rewrite Hi.
    destruct (usable (session m)); [|destruct (in_flight m)]; eauto.
  - exists (Complete i true). simpl. rewrite Hi. eauto.
  - destruct (in_flight m) eqn:Hf.
    + destruct (B1 eq_refl) as [j Hj].
      exists (Complete j true). simpl. rewrite Hj. eauto.
    + exists (Wake i). simpl. rewrite Hi, ?Hf. eauto.
Qed.

Lemma run_app (l1 l2 : list Action) (s : System) :
  run (l1 ++ l2) s = match run l1 s with Some s' => run l2 s' | None => None end.
Proof.
  revert s. induction l1 as [|a l1 IH]; intros s; simpl; [reflexivity|].
  destruct (fire a s); [apply IH|reflexivity].
Qed.

(** Sweeping an action over the callers [k, k+1, ...] that all stand at
    [c] and all move to [c'] without changing the manager. *)
Lemma sweep (act : nat -> Action) (m : Manager) (c c' : Caller) :
  (forall pre rest, fire (act (length pre)) (m, pre ++ c :: rest)
                    = Some (m, pre ++ c' :: rest)) ->
  forall j pre,
    run (map act (seq (length pre) j)) (m, pre ++ replicate j c)
    = Some (m, pre ++ replicate j c').
Proof.
  intros Hact. induction j as [|j IH]; intros pre; [reflexivity|].
  cbn [seq map run replicate]. rewrite Hact.
  specialize (IH (pre ++ [c'])).
  rewrite length_app, Nat.add_1_r, <- !app_assoc in IH. exact IH.
Qed.

Lemma fire_at (pre rest : list Caller) (c c' : Caller) :
  (pre ++ c :: rest) !! length pre = Some c /\
  <[length pre := c']> (pre ++ c :: rest) = pre ++ c' :: rest.
Proof.
  split; [now apply list_lookup_middle|].
  rewrite insert_app_r_alt by lia. now rewrite Nat.sub_diag.
Qed.

Lemma sweep_enter_usable (m : Manager) (j : nat) (pre : list Caller) :
  usable (session m) = true ->
  run (map Enter (seq (length pre) j)) (m, pre ++ replicate j Calling)
  = Some (m, pre ++ replicate j (Returned (token (session m)))).
Proof.
  intros Hu. apply sweep. intros p rest. simpl.
  destruct (fire_at p rest Calling (Returned (token (session m)))) as [-> ->].
  now rewrite Hu.
Qed.

Lemma sweep_enter_waits (m : Manager) (j : nat) (pre : list Caller) :
  usable (session m) = false -> in_flight m = true ->
  run (map Enter (seq (length pre) j)) (m, pre ++ replicate j Calling)
  = Some (m, pre ++ replicate j Waiting).
Proof.
  intros Hu Hf. apply sweep. intros p rest. simpl.
  destruct (fire_at p rest Calling Waiting) as [-> ->].
  now rewrite Hu, Hf.
Qed.

Lemma sweep_wake (m : Manager) (j : nat) (pre : list Caller) :
  in_flight m = false ->
  run (map Wake (seq (length pre) j)) (m, pre ++ replicate j Waiting)
  = Some (m, pre ++ replicate j Calling).
Proof.
  intros Hf. apply sweep. intros p rest. simpl.
  destruct (fire_at p rest Waiting Calling) as [-> ->].
  now rewrite Hf.
Qed.

(** Both schedules are enabled from start to end for every number of
    callers, and end with one login and every caller holding its
    session: the single-flight guarantee is met by runs that complete. *)
Lemma one_after_another_completes (n : nat) (s0 : AuthSession) :
  usable s0 = false ->
  run (one_after_another (S n)) (start s0 (S n)) = Some (all_returned (S n)).
Proof.
  intros Hexp. unfold one_after_another, start, all_returned.
  cbn [run fire replicate lookup list_lookup session in_flight logins].
  rewrite Hexp. cbn.
  exact (sweep_enter_usable logged_in n [Returned 1] eq_refl).
Qed.

Lemma all_at_once_completes (n : nat) (s0 : AuthSession) :
  usable s0 = false ->
  run (all_at_once (S n)) (start s0 (S n)) = Some (all_returned (S n)).
Proof.
  intros Hexp.
  pose proof (sweep_enter_waits
                {| session := s0; in_flight := true; logins := 1; failures := 0 |}
                n [Refreshing] Hexp eq_refl) as Hwait.
  pose proof (sweep_wake logged_in n [Returned 1] eq_refl) as Hwake.
  pose proof (sweep_enter_usable logged_in n [Returned 1] eq_refl) as Hfind.
  cbn [length app] in Hwait, Hwake, Hfind.
  unfold all_at_once, start, all_returned, logged_in in *.
  cbn [run fire replicate lookup list_lookup session in_flight logins failures].
  rewrite Hexp. cbn [insert list_insert].
  rewrite run_app, Hwait.
  cbn [run fire lookup list_lookup insert list_insert logins failures].
  rewrite run_app, Hwake. exact Hfind.
Qed.

End SessionFacts.



